(** * cpp-pic: the position-independent 64-bit integer substrate

    A shallow embedding of the runtime primitives of the repository:

    - [include/runtime/primitives/int64_common.h]: the operator macros
      shared by the two 64-bit classes;
    - [include/runtime/primitives/uint64.h]: class [UINT64];
    - [include/runtime/primitives/int64.h]: class [INT64];
    - [include/runtime/platform/platform.h]: [STACK_ARRAY_STORAGE];
    - [src/runtime/platform/allocator.cc]: [memcpy];
    - the conversion of a [DOUBLE] to an integer, whose header is not
      among the sources and is described from the specification.

    A [UINT32] is a [Z] in [0, 2^32) and an [INT32] a [Z] in
    [-2^31, 2^31); every C++ operation that can leave the range is followed
    by the conversion back into it, written out ([u32], [s32]).  Signed
    32-bit arithmetic is taken to wrap around (two's complement), which is
    what the target compiler emits for the operators below. *)

From Stdlib Require Import ZArith Lia Bool List Btauto.
From Stdlib Require Strings.Byte.
From stdpp Require Import base list functions.
From coqutil Require Import Z.bitblast.

Local Open Scope Z_scope.

(** ** 32-bit words (primitives.h: [UINT32], [INT32]) *)

(** Conversion of an integer to [UINT32]. *)
Definition u32 (x : Z) : Z := x mod 2 ^ 32.

(** Conversion of an integer to [INT32] (two's complement). *)
Definition s32 (x : Z) : Z :=
  if x mod 2 ^ 32 <? 2 ^ 31 then x mod 2 ^ 32 else x mod 2 ^ 32 - 2 ^ 32.

Definition is_u32 (x : Z) : Prop := 0 <= x < 2 ^ 32.
Definition is_s32 (x : Z) : Prop := - 2 ^ 31 <= x < 2 ^ 31.

(** The native 64-bit types the classes stand in for: an
    [unsigned long long] is a [Z] in [0, 2^64), a [signed long long] a [Z]
    in [-2^63, 2^63); [s64] is the two's-complement reading of an integer
    modulo 2^64. *)
Definition s64 (x : Z) : Z :=
  if x mod 2 ^ 64 <? 2 ^ 63 then x mod 2 ^ 64 else x mod 2 ^ 64 - 2 ^ 64.

Definition is_s64 (x : Z) : Prop := - 2 ^ 63 <= x < 2 ^ 63.

(** ** The operator macros of int64_common.h

    The macros are expanded textually inside both classes; they only use the
    members [low] and [high] and the two-word constructor
    [CLASS_NAME(h, l)].  The class below is that interface; the constructor
    converts its first argument to the class's high-word type and its
    second to [UINT32], as the C++ constructor call does. *)

Class Int64Class (T : Type) := {
  Low : T -> Z;
  High : T -> Z;
  (** conversion to the type of the member [high] *)
  word : Z -> Z;
  (** [CLASS_NAME(h, l)] on already converted words *)
  Build : Z -> Z -> T;
}.

Section DEFINE_INT64_COMMON_OPERATIONS.
Context {T : Type} `{Int64Class T}.

(** [CLASS_NAME(h, l)] with the implicit conversions of its arguments. *)
Definition Make (h l : Z) : T := Build (word h) (u32 l).

(** DEFINE_INT64_COMPARISON_OPERATORS *)
Definition op_eq (x other : T) : bool :=
  (Low x =? Low other) && (High x =? High other).

Definition op_ne (x other : T) : bool := negb (op_eq x other).

Definition op_lt (x other : T) : bool :=
  if negb (High x =? High other) then High x <? High other
  else Low x <? Low other.

Definition op_le (x other : T) : bool :=
  if negb (High x =? High other) then High x <? High other
  else Low x <=? Low other.

Definition op_gt (x other : T) : bool :=
  if negb (High x =? High other) then High x >? High other
  else Low x >? Low other.

Definition op_ge (x other : T) : bool :=
  if negb (High x =? High other) then High x >? High other
  else Low x >=? Low other.

(** DEFINE_INT64_BITWISE_OPERATORS *)
Definition op_and (x other : T) : T :=
  Make (Z.land (High x) (High other)) (Z.land (Low x) (Low other)).

Definition op_or (x other : T) : T :=
  Make (Z.lor (High x) (High other)) (Z.lor (Low x) (Low other)).

Definition op_xor (x other : T) : T :=
  Make (Z.lxor (High x) (High other)) (Z.lxor (Low x) (Low other)).

Definition op_not (x : T) : T :=
  Make (Z.lnot (High x)) (Z.lnot (Low x)).

(** DEFINE_INT64_BITWISE_ASSIGNMENTS: the object after [x op= other]. *)
Definition op_and_assign (x other : T) : T :=
  let high := word (Z.land (High x) (High other)) in
  let low := u32 (Z.land (Low x) (Low other)) in
  Build high low.

Definition op_or_assign (x other : T) : T :=
  let high := word (Z.lor (High x) (High other)) in
  let low := u32 (Z.lor (Low x) (Low other)) in
  Build high low.

Definition op_xor_assign (x other : T) : T :=
  let high := word (Z.lxor (High x) (High other)) in
  let low := u32 (Z.lxor (Low x) (Low other)) in
  Build high low.

(** DEFINE_INT64_INCREMENT_DECREMENT.  The prefix forms return the
    updated object; the postfix forms return the old value together with
    the updated object. *)
Definition op_preinc (x : T) : T :=
  let low := u32 (Low x + 1) in
  if low =? 0 then Build (word (High x + 1)) low else Build (High x) low.

Definition op_postinc (x : T) : T * T := (x, op_preinc x).

Definition op_predec (x : T) : T :=
  let low := u32 (Low x - 1) in
  if Low x =? 0 then Build (word (High x - 1)) low else Build (High x) low.

Definition op_postdec (x : T) : T * T := (x, op_predec x).
End DEFINE_INT64_COMMON_OPERATIONS.

(** ** class UINT64 (uint64.h) *)

Module UINT64.

Record t : Type := mk { high : Z; low : Z }.

#[global] Instance common : Int64Class t :=
  {| Low := low; High := high; word := u32; Build := mk |}.

(** [UINT64(UINT32 h, UINT32 l)] *)
Definition make (h l : Z) : t := mk (u32 h) (u32 l).

(** [UINT64(unsigned long long val)] *)
Definition of_ull (val : Z) : t :=
  mk (u32 (Z.land (Z.shiftr val 32) 4294967295)) (u32 (Z.land val 4294967295)).

(** [operator unsigned long long()] *)
Definition to_ull (x : t) : Z := Z.lor (Z.shiftl (high x) 32) (low x).

(** The representation invariant: both members are [UINT32] values. *)
Definition wf (x : t) : Prop := is_u32 (high x) /\ is_u32 (low x).

(** [operator+(const UINT64 &)] *)
Definition add (x other : t) : t :=
  let newLow := u32 (low x + low other) in
  let carry := if newLow <? low x then 1 else 0 in
  let newHigh := u32 (high x + high other + carry) in
  make newHigh newLow.

(** [operator-(const UINT64 &)] *)
Definition sub (x other : t) : t :=
  let newLow := u32 (low x - low other) in
  let borrow := if low x <? low other then 1 else 0 in
  let newHigh := u32 (high x - high other - borrow) in
  make newHigh newLow.

(** [operator*(const UINT64 &)] *)
Definition mul (x other : t) : t :=
  let a0 := Z.land (low x) 65535 in
  let a1 := Z.shiftr (low x) 16 in
  let a2 := Z.land (high x) 65535 in
  let a3 := Z.shiftr (high x) 16 in
  let b0 := Z.land (low other) 65535 in
  let b1 := Z.shiftr (low other) 16 in
  let b2 := Z.land (high other) 65535 in
  let b3 := Z.shiftr (high other) 16 in
  let p0 := u32 (a0 * b0) in
  let p1 := u32 (a1 * b0) in
  let p2 := u32 (a0 * b1) in
  let p3 := u32 (a2 * b0) in
  let p4 := u32 (a1 * b1) in
  let p5 := u32 (a0 * b2) in
  let p6 := u32 (a3 * b0) in
  let p7 := u32 (a2 * b1) in
  let p8 := u32 (a1 * b2) in
  let p9 := u32 (a0 * b3) in
  let r0 := Z.land p0 65535 in
  let carry := Z.shiftr p0 16 in
  let sum1 := u32 (carry + Z.land p1 65535 + Z.land p2 65535) in
  let r1 := Z.land sum1 65535 in
  let carry := Z.shiftr sum1 16 in
  let sum2 := u32 (carry + Z.shiftr p1 16 + Z.shiftr p2 16
                   + Z.land p3 65535 + Z.land p4 65535 + Z.land p5 65535) in
  let r2 := Z.land sum2 65535 in
  let carry := Z.shiftr sum2 16 in
  let sum3 := u32 (carry + Z.shiftr p3 16 + Z.shiftr p4 16 + Z.shiftr p5 16
                   + Z.land p6 65535 + Z.land p7 65535 + Z.land p8 65535
                   + Z.land p9 65535) in
  let r3 := Z.land sum3 65535 in
  let resultLow := Z.lor r0 (u32 (Z.shiftl r1 16)) in
  let resultHigh := Z.lor r2 (u32 (Z.shiftl r3 16)) in
  make resultHigh resultLow.

(** Bit [i] of the dividend, as the loop bodies of [operator/] and
    [operator%] read it. *)
Definition dividend_bit (x : t) (i : Z) : bool :=
  if i >=? 32 then negb (Z.land (Z.shiftr (high x) (i - 32)) 1 =? 0)
  else negb (Z.land (Z.shiftr (low x) i) 1 =? 0).

(** The first half of the loop body: shift the remainder left by one and
    bring in bit [i] of the dividend. *)
Definition shift_in (x : t) (i : Z) (remainder : t) : t :=
  let remainder :=
    make (Z.lor (u32 (Z.shiftl (high remainder) 1)) (Z.shiftr (low remainder) 31))
         (u32 (Z.shiftl (low remainder) 1)) in
  if dividend_bit x i
  then mk (high remainder) (u32 (Z.lor (low remainder) 1))
  else remainder.

(** [quotient.high |= (UINT32)1 << (i - 32)] or
    [quotient.low |= (UINT32)1 << i]. *)
Definition set_bit (quotient : t) (i : Z) : t :=
  if i >=? 32
  then mk (u32 (Z.lor (high quotient) (u32 (Z.shiftl 1 (i - 32))))) (low quotient)
  else mk (high quotient) (u32 (Z.lor (low quotient) (u32 (Z.shiftl 1 i)))).

(** One iteration of the loop of [operator/] on the pair
    (quotient, remainder). *)
Definition div_step (x other : t) (i : Z) (st : t * t) : t * t :=
  let (quotient, remainder) := st in
  let remainder := shift_in x i remainder in
  if op_ge remainder other
  then (set_bit quotient i, sub remainder other)
  else (quotient, remainder).

(** [for (int i = n - 1; i >= 0; i--)] with the body of [operator/]. *)
Fixpoint div_loop (n : nat) (x other : t) (st : t * t) : t * t :=
  match n with
  | O => st
  | S k => div_loop k x other (div_step x other (Z.of_nat k) st)
  end.

(** [operator/(const UINT64 &)] *)
Definition div (x other : t) : t :=
  if (high other =? 0) && (low other =? 0) then make 0 0
  else fst (div_loop 64 x other (make 0 0, make 0 0)).

(** One iteration of the loop of [operator%]. *)
Definition mod_step (x other : t) (i : Z) (remainder : t) : t :=
  let remainder := shift_in x i remainder in
  if op_ge remainder other then sub remainder other else remainder.

Fixpoint mod_loop (n : nat) (x other : t) (remainder : t) : t :=
  match n with
  | O => remainder
  | S k => mod_loop k x other (mod_step x other (Z.of_nat k) remainder)
  end.

(** [operator%(const UINT64 &)] *)
Definition rem (x other : t) : t :=
  if (high other =? 0) && (low other =? 0) then make 0 0
  else mod_loop 64 x other (make 0 0).

(** [explicit UINT64(UINT32 val)] *)
Definition of_u32 (val : Z) : t := mk 0 (u32 val).

(** [operator%(UINT32 val)] and [operator%(int val)] *)
Definition rem_u32 (x : t) (val : Z) : t := rem x (of_u32 val).

Definition rem_int (x : t) (val : Z) : t := rem x (of_ull (val mod 2 ^ 64)).

(** [operator/(UINT32 val)] and [operator/(int val)] *)
Definition div_u32 (x : t) (val : Z) : t :=
  if u32 val =? 0 then make 0 0 else div x (of_u32 val).

Definition div_int (x : t) (val : Z) : t := div x (of_ull (val mod 2 ^ 64)).

(** [operator<<(int)] *)
Definition shl (x : t) (shift : Z) : t :=
  if (shift <? 0) || (shift >=? 64) then make 0 0
  else if shift =? 0 then x
  else if shift >=? 32 then make (Z.shiftl (low x) (shift - 32)) 0
  else make (Z.lor (u32 (Z.shiftl (high x) shift)) (Z.shiftr (low x) (32 - shift)))
            (Z.shiftl (low x) shift).

(** [operator>>(int)]: logical *)
Definition shr (x : t) (shift : Z) : t :=
  if (shift <? 0) || (shift >=? 64) then make 0 0
  else if shift =? 0 then x
  else if shift >=? 32 then make 0 (Z.shiftr (high x) (shift - 32))
  else make (Z.shiftr (high x) shift)
            (Z.lor (Z.shiftr (low x) shift) (u32 (Z.shiftl (high x) (32 - shift)))).

(** The loop invariant with [n] iterations left: the bits of the
    dividend above bit [n - 1] have been divided. *)
Definition div_inv (x other : t) (n : Z) (st : t * t) : Prop :=
  wf (fst st) /\ wf (snd st) /\
  0 <= to_ull (snd st) < to_ull other /\
  exists Q, 0 <= Q /\ to_ull (fst st) = Q * 2 ^ n /\
            to_ull x / 2 ^ n = Q * to_ull other + to_ull (snd st).

(** [MAX()] *)
Definition MAX : t := make (u32 (-1)) (u32 (-1)).

(** [operator+(UINT32 val)] *)
Definition add_u32 (x : t) (val : Z) : t :=
  let val := u32 val in
  let newLow := u32 (low x + val) in
  let carry := if newLow <? low x then 1 else 0 in
  make (high x + carry) newLow.

(** [operator-(UINT32 val)] *)
Definition sub_u32 (x : t) (val : Z) : t :=
  let val := u32 val in
  let newLow := u32 (low x - val) in
  let borrow := if low x <? val then 1 else 0 in
  make (high x - borrow) newLow.

(** [operator*(UINT32 val)] *)
Definition mul_u32 (x : t) (val : Z) : t :=
  let val := u32 val in
  let a0 := Z.land (low x) 65535 in
  let a1 := Z.shiftr (low x) 16 in
  let b0 := Z.land val 65535 in
  let b1 := Z.shiftr val 16 in
  let p0 := u32 (a0 * b0) in
  let p1 := u32 (a1 * b0) in
  let p2 := u32 (a0 * b1) in
  let p3 := u32 (a1 * b1) in
  let r0 := Z.land p0 65535 in
  let carry := Z.shiftr p0 16 in
  let sum1 := u32 (carry + Z.land p1 65535 + Z.land p2 65535) in
  let r1 := Z.land sum1 65535 in
  let carry := Z.shiftr sum1 16 in
  let sum2 := u32 (carry + Z.shiftr p1 16 + Z.shiftr p2 16 + Z.land p3 65535) in
  let r2 := Z.land sum2 65535 in
  let carry := Z.shiftr sum2 16 in
  let r3 := u32 (carry + Z.shiftr p3 16) in
  let resultLow := Z.lor r0 (u32 (Z.shiftl r1 16)) in
  let lowHigh := Z.lor r2 (u32 (Z.shiftl r3 16)) in
  let highPart := u32 (u32 (high x * val) + lowHigh) in
  make highPart resultLow.

(** The comparisons with a [UINT32]: [operator<(UINT32 val)] and so on. *)
Definition lt_u32 (x : t) (val : Z) : bool :=
  if high x =? 0 then low x <? u32 val else false.

Definition le_u32 (x : t) (val : Z) : bool :=
  if high x =? 0 then low x <=? u32 val else false.

Definition gt_u32 (x : t) (val : Z) : bool :=
  if negb (high x =? 0) then true else low x >? u32 val.

Definition ge_u32 (x : t) (val : Z) : bool :=
  if negb (high x =? 0) then true else low x >=? u32 val.

Definition eq_u32 (x : t) (val : Z) : bool :=
  (high x =? 0) && (low x =? u32 val).

Definition ne_u32 (x : t) (val : Z) : bool :=
  negb (high x =? 0) || negb (low x =? u32 val).

(** [operator==(int val)] and [operator!=(int val)]: the operand is
    converted by [(UINT32)(unsigned long long)val]. *)
Definition eq_int (x : t) (val : Z) : bool :=
  (high x =? 0) && (low x =? u32 (s32 val mod 2 ^ 64)).

Definition ne_int (x : t) (val : Z) : bool :=
  negb (high x =? 0) || negb (low x =? u32 (s32 val mod 2 ^ 64)).

(** [operator&(UINT32 val)], [operator&(int val)], [operator|(UINT32 val)]
    and [operator^(UINT32 val)] *)
Definition and_u32 (x : t) (val : Z) : t := op_and x (of_u32 val).

Definition and_int (x : t) (val : Z) : t := op_and x (of_ull (s32 val mod 2 ^ 64)).

Definition or_u32 (x : t) (val : Z) : t := op_or x (of_u32 val).

Definition xor_u32 (x : t) (val : Z) : t := op_xor x (of_u32 val).

(** [operator+=] and [operator-=]: the object after the assignment. *)
Definition add_assign (x other : t) : t :=
  let newLow := u32 (low x + low other) in
  let carry := if newLow <? low x then 1 else 0 in
  let low' := newLow in
  let high' := u32 (high x + high other + carry) in
  mk high' low'.

Definition sub_assign (x other : t) : t :=
  let newLow := u32 (low x - low other) in
  let borrow := if low x <? low other then 1 else 0 in
  let low' := newLow in
  let high' := u32 (high x - high other - borrow) in
  mk high' low'.

(** [operator<<=(int)] and [operator>>=(int)]: the object after the
    assignment. *)
Definition shl_assign (x : t) (shift : Z) : t :=
  if (shift <? 0) || (shift >=? 64) then mk 0 0
  else if shift =? 0 then x
  else if shift >=? 32 then
    let high' := u32 (Z.shiftl (low x) (shift - 32)) in
    mk high' 0
  else
    let high' := u32 (Z.lor (u32 (Z.shiftl (high x) shift))
                            (Z.shiftr (low x) (32 - shift))) in
    let low' := u32 (Z.shiftl (low x) shift) in
    mk high' low'.

Definition shr_assign (x : t) (shift : Z) : t :=
  if (shift <? 0) || (shift >=? 64) then mk 0 0
  else if shift =? 0 then x
  else if shift >=? 32 then
    let low' := u32 (Z.shiftr (high x) (shift - 32)) in
    mk 0 low'
  else
    let low' := u32 (Z.lor (Z.shiftr (low x) shift)
                           (u32 (Z.shiftl (high x) (32 - shift)))) in
    let high' := u32 (Z.shiftr (high x) shift) in
    mk high' low'.

End UINT64.

(** ** class INT64 (int64.h) *)

Module INT64.

(** [low] is a [UINT32], [high] an [INT32]. *)
Record t : Type := mk { high : Z; low : Z }.

#[global] Instance common : Int64Class t :=
  {| Low := low; High := high; word := s32; Build := mk |}.

(** [INT64(INT32 h, UINT32 l)] *)
Definition make (h l : Z) : t := mk (s32 h) (u32 l).

(** [INT64(signed long long val)] *)
Definition of_sll (val : Z) : t :=
  mk (s32 (Z.land (Z.shiftr val 32) 4294967295)) (u32 (Z.land val 4294967295)).

(** [operator signed long long()] *)
Definition to_sll (x : t) : Z := Z.lor (Z.shiftl (high x) 32) (low x).

(** [operator UINT64()]: the same 64 bits read as an unsigned value. *)
Definition to_UINT64 (x : t) : UINT64.t := UINT64.make (u32 (high x)) (low x).

Definition wf (x : t) : Prop := is_s32 (high x) /\ is_u32 (low x).

(** [operator+(const INT64 &)] *)
Definition add (x other : t) : t :=
  let newLow := u32 (low x + low other) in
  let carry := if newLow <? low x then 1 else 0 in
  let newHigh := s32 (high x + high other + s32 carry) in
  make newHigh newLow.

(** [operator-(const INT64 &)] *)
Definition sub (x other : t) : t :=
  let newLow := u32 (low x - low other) in
  let borrow := if low x <? low other then 1 else 0 in
  let newHigh := s32 (high x - high other - s32 borrow) in
  make newHigh newLow.

(** unary [operator-()] *)
Definition neg (x : t) : t := sub (make 0 0) x.

(** [operator*(const INT64 &)] *)
Definition mul (x other : t) : t :=
  let a := UINT64.make (u32 (high x)) (low x) in
  let b := UINT64.make (u32 (high other)) (low other) in
  let result := UINT64.mul a b in
  make (s32 (UINT64.high result)) (UINT64.low result).

(** [operator/(const INT64 &)] *)
Definition div (x other : t) : t :=
  if (high other =? 0) && (low other =? 0) then make 0 0
  else
    let negResult := negb (Bool.eqb (high x <? 0) (high other <? 0)) in
    let absThis := if high x <? 0 then neg x else x in
    let absOther := if high other <? 0 then neg other else other in
    let dividend := UINT64.make (u32 (high absThis)) (low absThis) in
    let divisor := UINT64.make (u32 (high absOther)) (low absOther) in
    let quotient := UINT64.div dividend divisor in
    let result := make (s32 (UINT64.high quotient)) (UINT64.low quotient) in
    if negResult then neg result else result.

(** [operator%(const INT64 &)] *)
Definition rem (x other : t) : t :=
  if (high other =? 0) && (low other =? 0) then make 0 0
  else
    let quotient := div x other in
    sub x (mul quotient other).

(** [INT64(INT32 val)] *)
Definition of_i32 (val : Z) : t :=
  mk (if s32 val <? 0 then -1 else 0) (u32 (s32 val)).

(** [operator%(INT32 val)] and [operator/(INT32 val)] *)
Definition rem_i32 (x : t) (val : Z) : t := rem x (of_i32 val).

Definition div_i32 (x : t) (val : Z) : t := div x (of_i32 val).

(** [operator<<(int)] *)
Definition shl (x : t) (shift : Z) : t :=
  if (shift <? 0) || (shift >=? 64) then make 0 0
  else if shift =? 0 then x
  else if shift >=? 32 then make (s32 (u32 (Z.shiftl (low x) (shift - 32)))) 0
  else make (Z.lor (s32 (Z.shiftl (high x) shift))
                   (s32 (Z.shiftr (low x) (32 - shift))))
            (Z.shiftl (low x) shift).

(** [operator>>(int)]: arithmetic *)
Definition shr (x : t) (shift : Z) : t :=
  if shift <? 0 then x
  else if shift >=? 64
    then make (if high x <? 0 then -1 else 0)
              (if high x <? 0 then 4294967295 else 0)
  else if shift =? 0 then x
  else if shift >=? 32
    then make (if high x <? 0 then -1 else 0)
              (u32 (Z.shiftr (high x) (shift - 32)))
  else make (Z.shiftr (high x) shift)
            (Z.lor (Z.shiftr (low x) shift)
                   (u32 (Z.shiftl (u32 (high x)) (32 - shift)))).

(** [MAX()] and [MIN()] *)
Definition MAX : t := make (s32 2147483647) (u32 4294967295).

Definition MIN : t := make (s32 2147483648) (u32 0).

(** [explicit INT64(UINT32 val)] *)
Definition of_u32 (val : Z) : t := mk 0 (u32 val).

(** The comparisons with an [INT32]: [operator<(INT32 val)] goes through
    [INT64(val)], the others compare the words directly. *)
Definition lt_i32 (x : t) (val : Z) : bool := op_lt x (of_i32 val).

Definition le_i32 (x : t) (val : Z) : bool :=
  let val := s32 val in
  let valHigh := if val <? 0 then -1 else 0 in
  if negb (high x =? valHigh) then high x <? valHigh else low x <=? u32 val.

Definition gt_i32 (x : t) (val : Z) : bool :=
  let val := s32 val in
  let valHigh := if val <? 0 then -1 else 0 in
  if negb (high x =? valHigh) then high x >? valHigh else low x >? u32 val.

Definition ge_i32 (x : t) (val : Z) : bool :=
  let val := s32 val in
  let valHigh := if val <? 0 then -1 else 0 in
  if negb (high x =? valHigh) then high x >? valHigh else low x >=? u32 val.

Definition eq_i32 (x : t) (val : Z) : bool :=
  let val := s32 val in
  let valHigh := if val <? 0 then -1 else 0 in
  (high x =? valHigh) && (low x =? u32 val).

Definition ne_i32 (x : t) (val : Z) : bool :=
  let val := s32 val in
  let valHigh := if val <? 0 then -1 else 0 in
  negb (high x =? valHigh) || negb (low x =? u32 val).

(** [operator+(INT32 val)], [operator-(INT32 val)] and
    [operator*(INT32 val)] *)
Definition add_i32 (x : t) (val : Z) : t := add x (of_i32 val).

Definition sub_i32 (x : t) (val : Z) : t := sub x (of_i32 val).

Definition mul_i32 (x : t) (val : Z) : t := mul x (of_i32 val).

(** [operator+=] and [operator-=]: the object after the assignment. *)
Definition add_assign (x other : t) : t :=
  let newLow := u32 (low x + low other) in
  let carry := if newLow <? low x then 1 else 0 in
  let low' := newLow in
  let high' := s32 (high x + high other + s32 carry) in
  mk high' low'.

Definition sub_assign (x other : t) : t :=
  let newLow := u32 (low x - low other) in
  let borrow := if low x <? low other then 1 else 0 in
  let low' := newLow in
  let high' := s32 (high x - high other - s32 borrow) in
  mk high' low'.

(** [operator<<=(int)] and [operator>>=(int)]: the object after the
    assignment.  In the branch for [shift >= 64] of [operator>>=] the
    member [high] is overwritten before [low] is computed from it. *)
Definition shl_assign (x : t) (shift : Z) : t :=
  if (shift <? 0) || (shift >=? 64) then mk 0 0
  else if shift =? 0 then x
  else if shift >=? 32 then
    let high' := s32 (u32 (Z.shiftl (low x) (shift - 32))) in
    mk high' 0
  else
    let high' := s32 (Z.lor (s32 (Z.shiftl (high x) shift))
                            (s32 (Z.shiftr (low x) (32 - shift)))) in
    let low' := u32 (Z.shiftl (low x) shift) in
    mk high' low'.

Definition shr_assign (x : t) (shift : Z) : t :=
  if shift <? 0 then x
  else if shift >=? 64 then
    let high' := if high x <? 0 then -1 else 0 in
    let low' := if high' <? 0 then 4294967295 else 0 in
    mk high' low'
  else if shift =? 0 then x
  else if shift >=? 32 then
    let low' := u32 (Z.shiftr (high x) (shift - 32)) in
    let high' := if high x <? 0 then -1 else 0 in
    mk high' low'
  else
    let low' := u32 (Z.lor (Z.shiftr (low x) shift)
                           (u32 (Z.shiftl (u32 (high x)) (32 - shift)))) in
    let high' := s32 (Z.shiftr (high x) shift) in
    mk high' low'.

End INT64.

(** ** STACK_ARRAY_STORAGE (platform.h)

    [STACK_ARRAY_STORAGE<TChar, N>] keeps [N] elements of a character or
    integer type in an array of [USIZE] words.  The element type is given
    by its size in bytes and its signedness; an element is the integer it
    denotes.  The word array is a list, read with a default and written
    in place; the indices the class computes never leave it. *)

(** Conversion of an integer to [UINT8]. *)
Definition u8 (x : Z) : Z := x mod 2 ^ 8.

Module STACK_ARRAY_STORAGE.
Section Storage.

(** [sizeof(USIZE)]: 8 on the 64-bit targets, 4 on the others. *)
Variable WordBytes : nat.

(** [sizeof(TChar)], and whether [TChar] is a signed type. *)
Variable CharBytes : nat.
Variable TChar_signed : bool.

(** Conversion to [USIZE]. *)
Definition usize (x : Z) : Z := x mod 2 ^ (8 * Z.of_nat WordBytes).

(** Conversion to [U = UINT_OF_SIZE<sizeof(TChar)>::type]. *)
Definition to_U (x : Z) : Z := x mod 2 ^ (8 * Z.of_nat CharBytes).

(** Conversion from [U] back to [TChar]. *)
Definition to_TChar (u : Z) : Z :=
  if TChar_signed && (2 ^ (8 * Z.of_nat CharBytes - 1) <=? to_U u)
  then to_U u - 2 ^ (8 * Z.of_nat CharBytes)
  else to_U u.

(** The values of type [TChar]. *)
Definition is_TChar (v : Z) : Prop :=
  if TChar_signed
  then - 2 ^ (8 * Z.of_nat CharBytes - 1) <= v < 2 ^ (8 * Z.of_nat CharBytes - 1)
  else 0 <= v < 2 ^ (8 * Z.of_nat CharBytes).

(** [SizeBytes] and [WordCount] for an array of [N] elements. *)
Definition SizeBytes (N : nat) : nat := (N * CharBytes)%nat.

Definition WordCount (N : nat) : nat :=
  Nat.div (SizeBytes N + WordBytes - 1) WordBytes.

(** [SetByte(byteIndex, v)] on the array [words]; the parameter [v] is
    a [UINT8]. *)
Definition SetByte (words : list Z) (byteIndex : nat) (v : Z) : list Z :=
  let v := u8 v in
  let wi := Nat.div byteIndex WordBytes in
  let sh := (Nat.modulo byteIndex WordBytes * 8)%nat in
  let mask := usize (Z.shiftl (usize 255) (Z.of_nat sh)) in
  <[wi := Z.lor (Z.land (words !!! wi) (usize (Z.lnot mask)))
                (usize (Z.shiftl (usize v) (Z.of_nat sh)))]> words.

(** [GetByte(byteIndex)] *)
Definition GetByte (words : list Z) (byteIndex : nat) : Z :=
  let wi := Nat.div byteIndex WordBytes in
  let sh := (Nat.modulo byteIndex WordBytes * 8)%nat in
  u8 (Z.land (Z.shiftr (words !!! wi) (Z.of_nat sh)) (usize 255)).

(** [(UINT8)((v >> (b * 8u)) & (U)0xFFu)]: byte [b] of a value of type
    [U]. *)
Definition byte_of (v : Z) (b : nat) : Z :=
  u8 (Z.land (Z.shiftr v (Z.of_nat (b * 8))) (to_U 255)).

(** The first [n] iterations of the inner loop of the constructor for
    element [i], whose value converted to [U] is [v]: its bytes are
    stored low byte first. *)
Definition pack_bytes (n : nat) (words : list Z) (i : nat) (v : Z) : list Z :=
  fold_left
    (fun words b =>
       let data := byte_of v b in
       SetByte words (i * CharBytes + b) data)
    (seq 0 n) words.

(** The first [n] iterations of the outer loop of the constructor. *)
Definition pack_elements (n : nat) (src : list Z) (words : list Z) : list Z :=
  fold_left
    (fun words i => pack_bytes CharBytes words i (to_U (src !!! i)))
    (seq 0 n) words.

(** The constructor [STACK_ARRAY_STORAGE(const TChar (&src)[N])]: the
    words start zeroed and the [N] elements are packed in order. *)
Definition construct (src : list Z) : list Z :=
  let N := length src in
  pack_elements N src (replicate (WordCount N) 0).

(** The first [n] iterations of the loop of [operator[]]. *)
Definition gather_bytes (n : nat) (words : list Z) (base : nat) : Z :=
  fold_left
    (fun v b =>
       to_U (Z.lor v (Z.shiftl (to_U (GetByte words (base + b)))
                               (Z.of_nat (b * 8)))))
    (seq 0 n) 0.

(** [operator[](index)] *)
Definition index (words : list Z) (i : nat) : Z :=
  let base := (i * CharBytes)%nat in
  to_TChar (gather_bytes CharBytes words base).

End Storage.
End STACK_ARRAY_STORAGE.

(** ** memcpy (allocator.cc) and Allocator::CopyMemory (allocator.h)

    Memory is a map from addresses to bytes; a pointer is an address and
    the null pointer is address 0.  [memcpy] returns its result pointer
    together with the memory it leaves. *)

Module Allocator.

Definition memory : Type := Z -> Byte.byte.

(** [for (USIZE i = ...; i < count; i++) d[i] = s[i];] with [n]
    iterations left, the next one at index [i]. *)
Fixpoint copy_loop (n : nat) (i : Z) (d s : Z) (mem : memory) : memory :=
  match n with
  | O => mem
  | S k => copy_loop k (i + 1) d s (<[d + i := mem (s + i)]> mem)
  end.

(** [memcpy(dest, src, count)] *)
Definition memcpy (dest src count : Z) (mem : memory) : Z * memory :=
  if (dest =? 0) || (src =? 0) || (count =? 0) then (dest, mem)
  else (dest, copy_loop (Z.to_nat count) 0 dest src mem).

(** [Allocator::CopyMemory(dest, src, count)] *)
Definition CopyMemory (dest src count : Z) (mem : memory) : Z * memory :=
  memcpy dest src count mem.

(** [(CHAR)ch]: the low byte of an integer, and the integer an
    [UCHAR] byte promotes to. *)
Definition byte_of_Z (z : Z) : Byte.byte :=
  match Byte.of_N (Z.to_N (z mod 256)) with
  | Some b => b
  | None => Byte.x00
  end.

Definition Z_of_byte (b : Byte.byte) : Z := Z.of_N (Byte.to_N b).

(** [for (USIZE i = ...; i < count; i++) p[i] = byte;] *)
Fixpoint set_loop (n : nat) (i : Z) (p : Z) (byte : Byte.byte) (mem : memory)
  : memory :=
  match n with
  | O => mem
  | S k => set_loop k (i + 1) p byte (<[p + i := byte]> mem)
  end.

(** [memset(dest, ch, count)] *)
Definition memset (dest ch count : Z) (mem : memory) : Z * memory :=
  (dest, set_loop (Z.to_nat count) 0 dest (byte_of_Z ch) mem).

(** The loop of [memcmp]: it returns at the first index where the bytes
    differ. *)
Fixpoint cmp_loop (n : nat) (i : Z) (p1 p2 : Z) (mem : memory) : Z :=
  match n with
  | O => 0
  | S k =>
      if negb (Byte.eqb (mem (p1 + i)) (mem (p2 + i)))
      then s32 (Z_of_byte (mem (p1 + i)) - Z_of_byte (mem (p2 + i)))
      else cmp_loop k (i + 1) p1 p2 mem
  end.

(** [memcmp(ptr1, ptr2, num)] *)
Definition memcmp (ptr1 ptr2 num : Z) (mem : memory) : Z :=
  cmp_loop (Z.to_nat num) 0 ptr1 ptr2 mem.

(** [Allocator::SetMemory] and [Allocator::CompareMemory] *)
Definition SetMemory (dest ch count : Z) (mem : memory) : Z * memory :=
  memset dest ch count mem.

Definition CompareMemory (ptr1 ptr2 num : Z) (mem : memory) : Z :=
  memcmp ptr1 ptr2 num mem.

End Allocator.

(** ** DOUBLE: conversion to integer

    Modelled from the spec: [double.h], which defines class [DOUBLE] and its
    conversion operators, is not among the sources; only its tests
    ([tests/double_tests.h]) are.  The spec gives the data model (a 64-bit
    pattern held as a [UINT64], read as an IEEE-754 binary64: sign 1 bit,
    exponent 11 bits, mantissa 52 bits) and the contract (conversion to
    integer truncates toward zero).  The value of a finite pattern is the
    exact rational [numerator / denominator]; the spec does not say how the
    result is narrowed to the target integer type, so the conversion below
    returns the mathematical integer. *)

Module DOUBLE.

Record t : Type := mk { Bits : UINT64.t }.

(** Modelled from the spec: the sign field, bit 63. *)
Definition sign (d : t) : Z := Z.shiftr (UINT64.high (Bits d)) 31.

(** Modelled from the spec: the exponent field, bits 62..52. *)
Definition exponent (d : t) : Z :=
  Z.land (Z.shiftr (UINT64.high (Bits d)) 20) 2047.

(** Modelled from the spec: the mantissa field, bits 51..0. *)
Definition mantissa (d : t) : Z :=
  Z.land (UINT64.high (Bits d)) 1048575 * 2 ^ 32 + UINT64.low (Bits d).

(** Modelled from the spec: the finite values are the patterns whose
    exponent field is not all ones. *)
Definition is_finite (d : t) : Prop := exponent d <> 2047.

(** Modelled from the spec: the significand with its hidden bit (absent
    in a subnormal), and the power of two that scales it. *)
Definition significand (d : t) : Z :=
  if exponent d =? 0 then mantissa d else 2 ^ 52 + mantissa d.

Definition scale (d : t) : Z :=
  (if exponent d =? 0 then 1 else exponent d) - 1075.

(** Modelled from the spec: the value of a finite pattern is
    [numerator d / denominator d]. *)
Definition numerator (d : t) : Z :=
  (if sign d =? 0 then 1 else -1) * significand d * 2 ^ Z.max 0 (scale d).

Definition denominator (d : t) : Z := 2 ^ Z.max 0 (- scale d).

(** Modelled from the spec: conversion to integer truncates toward
    zero. *)
Definition to_integer (d : t) : Z := Z.quot (numerator d) (denominator d).

(** [DOUBLE(UINT32 high, UINT32 low)], as the tests construct it. *)
Definition of_words (h l : Z) : t := mk (UINT64.make h l).

End DOUBLE.

(** * Properties *)

(** ** Words *)

Ltac pow2_consts :=
  change (2 ^ 16) with 65536 in *;
  change (2 ^ 31) with 2147483648 in *;
  change (2 ^ 32) with 4294967296 in *;
  change (2 ^ 63) with 9223372036854775808 in *;
  change (2 ^ 64) with 18446744073709551616 in *.

(** Linear arithmetic with divisions and remainders by constants. *)
Ltac zdm := Z.div_mod_to_equations; lia.

Ltac word_unfold :=
  unfold is_u32, is_s32, u32, s32 in *; pow2_consts.

(** Equalities between bit patterns, one bit at a time. *)
Ltac bits_simpl :=
  subst;
  repeat match goal with
         | |- context [Z.testbit ?a ?i] => rewrite (Z.testbit_neg_r a i) by lia
         end;
  cbn [negb andb orb];
  rewrite ?andb_false_r, ?andb_true_r, ?orb_false_r.

Ltac bits_close :=
  repeat (progress bits_simpl); try reflexivity; try btauto; try (f_equal; lia).

Ltac bits := Z.bitblast; bits_close; try (Z.bitblast_core; bits_close).

Section Words.

Lemma u32_range x : is_u32 (u32 x).
Proof. word_unfold. zdm. Qed.

Lemma u32_small x : is_u32 x -> u32 x = x.
Proof. word_unfold. intros. zdm. Qed.

Lemma u32_idem x : u32 (u32 x) = u32 x.
Proof. apply u32_small, u32_range. Qed.

Lemma s32_range x : is_s32 (s32 x).
Proof. word_unfold. destruct (Z.ltb_spec (x mod 4294967296) 2147483648); zdm. Qed.

Lemma s32_small x : is_s32 x -> s32 x = x.
Proof. word_unfold. intros. destruct (Z.ltb_spec (x mod 4294967296) 2147483648); zdm. Qed.

Lemma u32_s32 x : u32 (s32 x) = u32 x.
Proof. word_unfold. destruct (Z.ltb_spec (x mod 4294967296) 2147483648); zdm. Qed.

Lemma s32_u32 x : s32 (u32 x) = s32 x.
Proof. unfold s32. fold (u32 x). fold (u32 (u32 x)). now rewrite u32_idem. Qed.

Lemma testbit_small a k n : 0 <= a < 2 ^ k -> k <= n -> Z.testbit a n = false.
Proof.
  intros Ha Hn. destruct (Z.eq_dec a 0) as [->|Hz]; [apply Z.bits_0|].
  apply Z.bits_above_log2; [lia|].
  assert (Z.log2 a < k) by (apply Z.log2_lt_pow2; lia). lia.
Qed.

(** Two bit fields that do not overlap are combined by [|] as by [+]. *)
Lemma lor_low_high a b k :
  0 <= k -> 0 <= a < 2 ^ k -> Z.lor a (b * 2 ^ k) = a + b * 2 ^ k.
Proof.
  intros Hk Ha. rewrite <- (Z.add_lor_land a (b * 2 ^ k)).
  assert (Z.land a (b * 2 ^ k) = 0) as ->; [|lia].
  apply Z.bits_inj'. intros n Hn. rewrite Z.land_spec, Z.bits_0.
  destruct (Z.lt_ge_cases n k).
  - rewrite Z.mul_pow2_bits_low by lia. apply andb_false_r.
  - rewrite (testbit_small a k n) by lia. reflexivity.
Qed.

Lemma lor_high_low a b k :
  0 <= k -> 0 <= a < 2 ^ k -> Z.lor (b * 2 ^ k) a = b * 2 ^ k + a.
Proof. intros. rewrite Z.lor_comm, lor_low_high by lia. lia. Qed.

Lemma land_65535 x : Z.land x 65535 = x mod 2 ^ 16.
Proof. change 65535 with (Z.ones 16). apply Z.land_ones. lia. Qed.

Lemma land_ffffffff x : Z.land x 4294967295 = x mod 2 ^ 32.
Proof. change 4294967295 with (Z.ones 32). apply Z.land_ones. lia. Qed.

Lemma land_1 x : Z.land x 1 = x mod 2.
Proof. change 1 with (Z.ones 1) at 1. rewrite Z.land_ones by lia. reflexivity. Qed.

End Words.

(** ** UINT64: the value of a word pair *)

Section UINT64_value.
Import UINT64.

Lemma to_ull_eq x : wf x -> to_ull x = high x * 2 ^ 32 + low x.
Proof.
  intros [_ Hl]. unfold to_ull. rewrite Z.shiftl_mul_pow2 by lia.
  apply lor_high_low; [lia|exact Hl].
Qed.

Lemma to_ull_range x : wf x -> 0 <= to_ull x < 2 ^ 64.
Proof.
  intros Hx. rewrite to_ull_eq by assumption. destruct Hx. word_unfold. lia.
Qed.

Lemma wf_make h l : wf (make h l).
Proof. split; apply u32_range. Qed.

Lemma wf_mk h l : is_u32 h -> is_u32 l -> wf (mk h l).
Proof. now split. Qed.

Lemma to_ull_inj x y : wf x -> wf y -> to_ull x = to_ull y -> x = y.
Proof.
  intros Hx Hy. rewrite !to_ull_eq by assumption.
  destruct x as [hx lx], y as [hy ly], Hx, Hy; cbn in *. word_unfold.
  intros. assert (hx = hy) by lia. assert (lx = ly) by lia. congruence.
Qed.

Lemma of_ull_to_ull x : wf x -> of_ull (to_ull x) = x.
Proof.
  intros Hx. rewrite to_ull_eq by assumption. destruct x as [h l], Hx; cbn in *.
  unfold of_ull. rewrite !land_ffffffff, Z.shiftr_div_pow2 by lia.
  word_unfold. f_equal; zdm.
Qed.

Lemma to_ull_of_ull v : 0 <= v < 2 ^ 64 -> to_ull (of_ull v) = v.
Proof.
  intros Hv. rewrite to_ull_eq.
  - unfold of_ull; cbn. rewrite !land_ffffffff, Z.shiftr_div_pow2 by lia.
    word_unfold. zdm.
  - apply wf_mk; apply u32_range.
Qed.

Lemma wf_of_ull v : wf (of_ull v).
Proof. apply wf_mk; apply u32_range. Qed.

Lemma add_wf x y : wf (add x y).
Proof. apply wf_make. Qed.

Lemma sub_wf x y : wf (sub x y).
Proof. apply wf_make. Qed.

Lemma to_ull_add x y :
  wf x -> wf y -> to_ull (add x y) = (to_ull x + to_ull y) mod 2 ^ 64.
Proof.
  intros Hx Hy. rewrite (to_ull_eq (add x y)) by apply add_wf.
  rewrite !to_ull_eq by assumption.
  destruct x as [hx lx], y as [hy ly], Hx, Hy; cbn in *.
  unfold add, make; cbn. word_unfold.
  destruct (Z.ltb_spec ((lx + ly) mod 4294967296) lx); zdm.
Qed.

Lemma to_ull_sub x y :
  wf x -> wf y -> to_ull (sub x y) = (to_ull x - to_ull y) mod 2 ^ 64.
Proof.
  intros Hx Hy. rewrite (to_ull_eq (sub x y)) by apply sub_wf.
  rewrite !to_ull_eq by assumption.
  destruct x as [hx lx], y as [hy ly], Hx, Hy; cbn in *.
  unfold sub, make; cbn. word_unfold.
  destruct (Z.ltb_spec lx ly); zdm.
Qed.

Lemma op_ge_spec x y :
  wf x -> wf y -> op_ge x y = (to_ull y <=? to_ull x).
Proof.
  intros Hx Hy. rewrite !to_ull_eq by assumption.
  destruct x as [hx lx], y as [hy ly], Hx, Hy; cbn in *.
  unfold op_ge; cbn. word_unfold.
  destruct (Z.eqb_spec hx hy); cbn.
  - subst. rewrite Z.geb_leb. destruct (Z.leb_spec ly lx), (Z.leb_spec (hy * 4294967296 + ly) (hy * 4294967296 + lx)); lia.
  - rewrite Z.gtb_ltb. destruct (Z.ltb_spec hy hx), (Z.leb_spec (hy * 4294967296 + ly) (hx * 4294967296 + lx)); lia.
Qed.

End UINT64_value.

(** ** UINT64: restoring long division *)

Section UINT64_division.
Import UINT64.

Lemma lor_u32 a b : is_u32 a -> is_u32 b -> is_u32 (Z.lor a b).
Proof.
  intros Ha Hb. rewrite <- (u32_small a), <- (u32_small b) by assumption.
  unfold u32. rewrite <- !Z.land_ones, <- Z.land_lor_distr_l, Z.land_ones by lia.
  apply u32_range.
Qed.

Lemma low_bit_test a s :
  0 <= s -> negb (Z.land (Z.shiftr a s) 1 =? 0) = Z.testbit a s.
Proof.
  intros Hs. rewrite land_1, Z.shiftr_div_pow2, <- Z.testbit_spec' by lia.
  now destruct (Z.testbit a s).
Qed.

Lemma dividend_bit_spec x i :
  wf x -> 0 <= i < 64 -> dividend_bit x i = Z.testbit (to_ull x) i.
Proof.
  intros [Hh Hl] Hi. unfold dividend_bit, to_ull.
  rewrite Z.lor_spec, Z.shiftl_spec by lia.
  rewrite Z.geb_leb. destruct (Z.leb_spec 32 i).
  - rewrite low_bit_test by lia.
    rewrite (testbit_small (low x) 32 i) by (exact Hl || lia).
    now rewrite orb_false_r.
  - rewrite low_bit_test by lia.
    now rewrite (Z.testbit_neg_r (high x) (i - 32)) by lia.
Qed.

Lemma div_pow2_succ a k :
  0 <= k -> a / 2 ^ k = 2 * (a / 2 ^ (k + 1)) + Z.b2z (Z.testbit a k).
Proof.
  intros Hk. rewrite Z.testbit_spec' by lia.
  rewrite Z.pow_add_r, <- Z.div_div by lia.
  change (2 ^ 1) with 2. generalize (a / 2 ^ k). intros. zdm.
Qed.

(** The first half of the loop body doubles the remainder and adds the
    next bit of the dividend, provided the top bit of the remainder is
    clear (otherwise the shift would lose it). *)
Lemma shift_in_spec x i r :
  wf x -> wf r -> 0 <= i < 64 -> to_ull r < 2 ^ 63 ->
  wf (shift_in x i r) /\
  to_ull (shift_in x i r) = 2 * to_ull r + Z.b2z (Z.testbit (to_ull x) i).
Proof.
  intros Hx Hr Hi Hsmall.
  assert (Hw : wf (shift_in x i r)).
  { unfold shift_in. destruct (dividend_bit x i); [|apply wf_make].
    apply wf_mk; cbn; apply u32_range. }
  split; [exact Hw|]. rewrite to_ull_eq by exact Hw. clear Hw.
  rewrite (to_ull_eq r) in * by exact Hr.
  unfold shift_in. rewrite dividend_bit_spec by assumption.
  destruct r as [rh rl], Hr as [Hh Hl]; cbn in *.
  rewrite !Z.shiftl_mul_pow2, Z.shiftr_div_pow2 by lia.
  assert (Hrh : 0 <= rh < 2 ^ 31) by (word_unfold; lia).
  assert (E1 : u32 (rh * 2 ^ 1) = rh * 2 ^ 1) by (apply u32_small; word_unfold; lia).
  rewrite E1, lor_high_low by (word_unfold; zdm).
  assert (E2 : u32 (u32 (rl * 2 ^ 1)) = (rl mod 2 ^ 31) * 2 ^ 1)
    by (word_unfold; zdm).
  destruct (Z.testbit (to_ull x) i); cbn [make high low Z.b2z].
  - rewrite E2, lor_high_low by lia. word_unfold. zdm.
  - rewrite E2. word_unfold. zdm.
Qed.

Lemma to_ull_set_bit q i :
  wf q -> 0 <= i < 64 ->
  wf (set_bit q i) /\ to_ull (set_bit q i) = Z.lor (to_ull q) (2 ^ i).
Proof.
  intros [Hh Hl] Hi. unfold set_bit, to_ull. rewrite Z.geb_leb.
  destruct (Z.leb_spec 32 i); cbn [high low].
  - assert (E : u32 (Z.shiftl 1 (i - 32)) = 2 ^ (i - 32)).
    { rewrite Z.shiftl_mul_pow2, Z.mul_1_l by lia. apply u32_small.
      unfold is_u32. split; [lia|]. apply Z.pow_lt_mono_r; lia. }
    rewrite E.
    assert (Hb : is_u32 (2 ^ (i - 32))) by (rewrite <- E; apply u32_range).
    rewrite u32_small by (apply lor_u32; assumption).
    split; [apply wf_mk; [apply lor_u32|]; assumption|].
    rewrite Z.shiftl_lor, (Z.shiftl_mul_pow2 (2 ^ (i - 32))) by lia.
    rewrite <- Z.pow_add_r by lia. replace (i - 32 + 32) with i by lia.
    rewrite <- !Z.lor_assoc. f_equal. apply Z.lor_comm.
  - assert (E : u32 (Z.shiftl 1 i) = 2 ^ i).
    { rewrite Z.shiftl_mul_pow2, Z.mul_1_l by lia. apply u32_small.
      unfold is_u32. split; [lia|]. apply Z.pow_lt_mono_r; lia. }
    rewrite E.
    assert (Hb : is_u32 (2 ^ i)) by (rewrite <- E; apply u32_range).
    rewrite u32_small by (apply lor_u32; assumption).
    split; [apply wf_mk; [|apply lor_u32]; assumption|].
    now rewrite Z.lor_assoc.
Qed.

Lemma div_inv_init x other :
  wf x -> 0 < to_ull other ->
  div_inv x other 64 (make 0 0, make 0 0).
Proof.
  intros Hx Hpos. pose proof (to_ull_range x Hx).
  assert (to_ull (make 0 0) = 0) by reflexivity.
  unfold div_inv; cbn [fst snd]. repeat split; try apply u32_range; try lia.
  exists 0. rewrite Z.div_small by lia. lia.
Qed.

Lemma div_inv_step x other k st :
  wf x -> wf other -> 0 <= k < 64 ->
  div_inv x other (k + 1) st -> div_inv x other k (div_step x other k st).
Proof.
  intros Hx Ho Hk (Hq & Hr & Hlt & Q & HQ & Eq & Ex).
  destruct st as [q r]; cbn [fst snd] in *.
  pose proof (to_ull_range x Hx) as HA. pose proof (to_ull_range other Ho) as HB.
  assert (Hhalf : to_ull x / 2 ^ (k + 1) < 2 ^ 63).
  { apply Z.div_lt_upper_bound; [lia|].
    assert (2 ^ 1 <= 2 ^ (k + 1)) by (apply Z.pow_le_mono_r; lia).
    change (2 ^ 1) with 2 in *. pow2_consts. nia. }
  assert (Hr63 : to_ull r < 2 ^ 63) by nia.
  destruct (shift_in_spec x k r Hx Hr Hk Hr63) as [Hw Ev].
  pose proof (div_pow2_succ (to_ull x) k (proj1 Hk)) as Ek.
  assert (Hb : 0 <= Z.b2z (Z.testbit (to_ull x) k) <= 1)
    by (destruct (Z.testbit (to_ull x) k); cbn; lia).
  assert (Hp : 2 ^ (k + 1) = 2 * 2 ^ k) by (rewrite Z.pow_add_r by lia; lia).
  unfold div_step. rewrite op_ge_spec by assumption.
  destruct (Z.leb_spec (to_ull other) (to_ull (shift_in x k r))) as [Hge|Hlt'].
  - destruct (to_ull_set_bit q k Hq Hk) as [Hwq Evq].
    unfold div_inv; cbn [fst snd].
    assert (Es : to_ull (sub (shift_in x k r) other)
                 = to_ull (shift_in x k r) - to_ull other).
    { rewrite to_ull_sub by assumption. apply Z.mod_small. pow2_consts. lia. }
    split; [exact Hwq|]. split; [apply sub_wf|]. split; [lia|].
    exists (2 * Q + 1). split; [lia|]. split; [|nia].
    rewrite Evq, Eq, lor_high_low; [nia|lia|].
    split; [lia|]. apply Z.pow_lt_mono_r; lia.
  - unfold div_inv; cbn [fst snd].
    split; [exact Hq|]. split; [exact Hw|]. split; [lia|].
    exists (2 * Q). split; [lia|]. split; nia.
Qed.

Lemma div_loop_inv n x other st :
  wf x -> wf other -> (n <= 64)%nat ->
  div_inv x other (Z.of_nat n) st -> div_inv x other 0 (div_loop n x other st).
Proof.
  intros Hx Ho. revert st. induction n as [|k IH]; intros st Hn Hinv.
  - exact Hinv.
  - cbn [div_loop]. apply IH; [lia|].
    apply div_inv_step; try assumption; try lia.
    now replace (Z.of_nat k + 1) with (Z.of_nat (S k)) by lia.
Qed.

Lemma div_inv_finish x other st :
  div_inv x other 0 st ->
  to_ull (fst st) = to_ull x / to_ull other /\
  to_ull (snd st) = to_ull x mod to_ull other.
Proof.
  intros (_ & _ & Hlt & Q & HQ & Eq & Ex).
  rewrite Z.pow_0_r, Z.div_1_r in Ex. rewrite Z.mul_1_r in Eq. rewrite Eq.
  split.
  - apply (Z.div_unique_pos _ _ _ (to_ull (snd st))); lia.
  - apply (Z.mod_unique_pos _ _ Q); lia.
Qed.

(** [operator%] runs the remainder half of the loop of [operator/]. *)
Lemma mod_loop_div_loop n x other q r :
  mod_loop n x other r = snd (div_loop n x other (q, r)).
Proof.
  revert q r. induction n as [|k IH]; intros q r; [reflexivity|].
  cbn [mod_loop div_loop]. unfold div_step, mod_step.
  destruct (op_ge (shift_in x (Z.of_nat k) r) other); apply IH.
Qed.

Lemma nonzero_test other :
  wf other -> (high other =? 0) && (low other =? 0) = (to_ull other =? 0).
Proof.
  intros Ho. rewrite to_ull_eq by assumption. destruct Ho as [Hh Hl].
  word_unfold.
  destruct (Z.eqb_spec (high other) 0), (Z.eqb_spec (low other) 0),
    (Z.eqb_spec (high other * 4294967296 + low other) 0); cbn; lia.
Qed.

End UINT64_division.

(** ** UINT64: division and modulo *)

Section UINT64_div_claims.
Import UINT64.

Lemma to_ull_div_rem (a b : t) :
  wf a -> wf b -> to_ull b <> 0 ->
  wf (div a b) /\ wf (rem a b) /\
  to_ull (div a b) = to_ull a / to_ull b /\
  to_ull (rem a b) = to_ull a mod to_ull b.
Proof.
  intros Ha Hb Hnz. pose proof (to_ull_range b Hb) as HB.
  unfold div, rem. rewrite nonzero_test by assumption.
  destruct (Z.eqb_spec (to_ull b) 0) as [|_]; [contradiction|].
  rewrite (mod_loop_div_loop 64 a b (make 0 0)).
  assert (Hinv : div_inv a b 0 (div_loop 64 a b (make 0 0, make 0 0))).
  { apply div_loop_inv; try assumption; [lia|]. apply div_inv_init; [assumption|lia]. }
  destruct (div_inv_finish _ _ _ Hinv) as [Hq Hr].
  destruct Hinv as (Hwq & Hwr & _). auto.
Qed.

(** C1.  For 64-bit unsigned [a] and [b] with [b <> 0], [operator/] and
    [operator%] of [UINT64] (64 rounds of shift, inject, compare,
    subtract, record) return the quotient and the remainder of the
    unsigned 64-bit division of [a] by [b]. *)
Theorem UINT64_div_rem_native (a b : t) :
  wf a -> wf b -> to_ull b <> 0 ->
  wf (div a b) /\ wf (rem a b) /\
  to_ull (div a b) = to_ull a / to_ull b /\
  to_ull (rem a b) = to_ull a mod to_ull b.
Proof. exact (to_ull_div_rem a b). Qed.

Lemma UINT64_div_rem_native_witness :
  to_ull (div (mk 232 3567587328) (mk 0 7)) = 142857142857 /\
  to_ull (rem (mk 232 3567587328) (mk 0 7)) = 1.
Proof.
  destruct (UINT64_div_rem_native (mk 232 3567587328) (mk 0 7)) as (_ & _ & Hq & Hr).
  - split; cbn; unfold is_u32; lia.
  - split; cbn; unfold is_u32; lia.
  - vm_compute. discriminate.
  - rewrite Hq, Hr. split; reflexivity.
Defined.

End UINT64_div_claims.

(** ** Division by zero *)

(** C2.  In both classes, dividing any value by zero gives zero and the
    remainder of any value by zero is zero, also through the overloads
    that take a 32-bit divisor; the operators are total functions, so
    nothing is signalled. *)
Theorem division_by_zero_is_zero (a : UINT64.t) (s : INT64.t) :
  UINT64.div a (UINT64.mk 0 0) = UINT64.mk 0 0 /\
  UINT64.rem a (UINT64.mk 0 0) = UINT64.mk 0 0 /\
  INT64.div s (INT64.mk 0 0) = INT64.mk 0 0 /\
  INT64.rem s (INT64.mk 0 0) = INT64.mk 0 0 /\
  UINT64.div_u32 a 0 = UINT64.mk 0 0 /\
  UINT64.div_int a 0 = UINT64.mk 0 0 /\
  UINT64.rem_u32 a 0 = UINT64.mk 0 0 /\
  UINT64.rem_int a 0 = UINT64.mk 0 0 /\
  INT64.div_i32 s 0 = INT64.mk 0 0 /\
  INT64.rem_i32 s 0 = INT64.mk 0 0.
Proof. repeat split. Qed.

(** ** UINT64: multiplication *)

Section UINT64_multiplication.
Import UINT64.

Lemma limbs16 v :
  is_u32 v ->
  0 <= v mod 2 ^ 16 < 2 ^ 16 /\ 0 <= v / 2 ^ 16 < 2 ^ 16 /\
  v = v mod 2 ^ 16 + 2 ^ 16 * (v / 2 ^ 16).
Proof. word_unfold. intros. zdm. Qed.

(** A product of two 16-bit halves fits a [UINT32]. *)
Lemma u32_prod a b :
  0 <= a < 2 ^ 16 -> 0 <= b < 2 ^ 16 ->
  u32 (a * b) = a * b /\ 0 <= a * b <= 4294836225.
Proof.
  intros Ha Hb. pow2_consts.
  assert (0 <= a * b <= 4294836225) by nia.
  split; [|assumption]. apply u32_small. word_unfold. lia.
Qed.

Lemma lor_halves x y :
  Z.lor (x mod 2 ^ 16) (u32 (y mod 2 ^ 16 * 2 ^ 16))
  = x mod 2 ^ 16 + y mod 2 ^ 16 * 2 ^ 16.
Proof.
  rewrite u32_small by (word_unfold; zdm).
  apply lor_low_high; [lia|]. apply Z.mod_pos_bound. lia.
Qed.

Lemma mul_wf x y : wf (mul x y).
Proof. apply wf_make. Qed.

Lemma to_ull_mul x y :
  wf x -> wf y -> to_ull (mul x y) = (to_ull x * to_ull y) mod 2 ^ 64.
Proof.
  intros Hx Hy. rewrite (to_ull_eq (mul x y)) by apply wf_make.
  rewrite (to_ull_eq x), (to_ull_eq y) by assumption.
  destruct x as [hx lx], y as [hy ly], Hx as [Hhx Hlx], Hy as [Hhy Hly].
  cbn [high low] in *. unfold mul. cbn [high low make].
  rewrite !land_65535, !Z.shiftr_div_pow2, !Z.shiftl_mul_pow2, !lor_halves by lia.
  destruct (limbs16 lx Hlx) as (Ha0 & Ha1 & Elx).
  destruct (limbs16 hx Hhx) as (Ha2 & Ha3 & Ehx).
  destruct (limbs16 ly Hly) as (Hb0 & Hb1 & Ely).
  destruct (limbs16 hy Hhy) as (Hb2 & Hb3 & Ehy).
  set (a0 := lx mod 2 ^ 16) in *. set (a1 := lx / 2 ^ 16) in *.
  set (a2 := hx mod 2 ^ 16) in *. set (a3 := hx / 2 ^ 16) in *.
  set (b0 := ly mod 2 ^ 16) in *. set (b1 := ly / 2 ^ 16) in *.
  set (b2 := hy mod 2 ^ 16) in *. set (b3 := hy / 2 ^ 16) in *.
  clearbody a0 a1 a2 a3 b0 b1 b2 b3. subst lx hx ly hy. clear Hhx Hlx Hhy Hly.
  (* the ten partial products do not overflow *)
  destruct (u32_prod a0 b0 Ha0 Hb0) as [-> B00].
  destruct (u32_prod a1 b0 Ha1 Hb0) as [-> B10].
  destruct (u32_prod a0 b1 Ha0 Hb1) as [-> B01].
  destruct (u32_prod a2 b0 Ha2 Hb0) as [-> B20].
  destruct (u32_prod a1 b1 Ha1 Hb1) as [-> B11].
  destruct (u32_prod a0 b2 Ha0 Hb2) as [-> B02].
  destruct (u32_prod a3 b0 Ha3 Hb0) as [-> B30].
  destruct (u32_prod a2 b1 Ha2 Hb1) as [-> B21].
  destruct (u32_prod a1 b2 Ha1 Hb2) as [-> B12].
  destruct (u32_prod a0 b3 Ha0 Hb3) as [-> B03].
  (* the six products of weight 2^64 and above are dropped *)
  replace (((a2 + 2 ^ 16 * a3) * 2 ^ 32 + (a0 + 2 ^ 16 * a1))
           * ((b2 + 2 ^ 16 * b3) * 2 ^ 32 + (b0 + 2 ^ 16 * b1)))
    with (a0 * b0 + (a1 * b0 + a0 * b1) * 2 ^ 16
          + (a2 * b0 + a1 * b1 + a0 * b2) * 2 ^ 32
          + (a3 * b0 + a2 * b1 + a1 * b2 + a0 * b3) * 2 ^ 48
          + 2 ^ 64 * (a1 * b3 + a2 * b2 + a3 * b1
                      + 2 ^ 16 * (a2 * b3 + a3 * b2) + 2 ^ 32 * (a3 * b3)))
    by ring.
  generalize (a1 * b3 + a2 * b2 + a3 * b1
              + 2 ^ 16 * (a2 * b3 + a3 * b2) + 2 ^ 32 * (a3 * b3)).
  revert B00 B10 B01 B20 B11 B02 B30 B21 B12 B03.
  generalize (a0 * b0) (a1 * b0) (a0 * b1) (a2 * b0) (a1 * b1) (a0 * b2)
             (a3 * b0) (a2 * b1) (a1 * b2) (a0 * b3).
  clear. intros. unfold u32.
  change (2 ^ 16) with 65536; change (2 ^ 32) with 4294967296;
  change (2 ^ 48) with 281474976710656;
  change (2 ^ 64) with 18446744073709551616.
  zdm.
Qed.

(** C5.  For 64-bit unsigned [a] and [b], [operator*] of [UINT64]
    (16-bit halves, ten cross products, carries propagated by hand)
    returns the product of [a] and [b] modulo 2^64. *)
Theorem UINT64_mul_native (a b : t) :
  wf a -> wf b ->
  wf (mul a b) /\ to_ull (mul a b) = (to_ull a * to_ull b) mod 2 ^ 64.
Proof. intros Ha Hb. split; [apply mul_wf|now apply to_ull_mul]. Qed.

Lemma UINT64_mul_native_witness :
  to_ull (mul (mk 4294967295 4294967295) (mk 4294967295 4294967294)) = 2.
Proof.
  destruct (UINT64_mul_native (mk 4294967295 4294967295) (mk 4294967295 4294967294))
    as [_ E].
  - split; cbn; unfold is_u32; lia.
  - split; cbn; unfold is_u32; lia.
  - rewrite E. reflexivity.
Defined.

End UINT64_multiplication.

(** ** UINT64: shifts *)

Section UINT64_shifts.
Import UINT64.

Lemma shl_wf x s : wf x -> wf (shl x s).
Proof.
  intros Hx. unfold shl.
  destruct ((s <? 0) || (s >=? 64)); [apply wf_make|].
  destruct (s =? 0); [exact Hx|]. destruct (s >=? 32); apply wf_make.
Qed.

Lemma to_ull_shl x s :
  wf x -> 0 <= s < 64 ->
  to_ull (shl x s) = (Z.shiftl (to_ull x) s) mod 2 ^ 64.
Proof.
  intros [Hh Hl] Hs. destruct x as [h l]. cbn [high low] in *.
  unfold shl, to_ull.
  rewrite <- (u32_small h Hh), <- (u32_small l Hl). clear Hh Hl.
  unfold make, u32. cbn [high low]. rewrite Z.geb_leb.
  destruct (Z.ltb_spec s 0); [lia|]. destruct (Z.leb_spec 64 s); [lia|].
  cbn [orb]. destruct (Z.eqb_spec s 0).
  - subst. cbn [high low]. bits.
  - rewrite Z.geb_leb. destruct (Z.leb_spec 32 s); cbn [high low]; bits.
Qed.

Lemma to_ull_shr x s :
  wf x -> 0 <= s < 64 -> to_ull (shr x s) = Z.shiftr (to_ull x) s.
Proof.
  intros [Hh Hl] Hs. destruct x as [h l]. cbn [high low] in *.
  unfold shr, to_ull.
  rewrite <- (u32_small h Hh), <- (u32_small l Hl). clear Hh Hl.
  unfold make, u32. cbn [high low]. rewrite Z.geb_leb.
  destruct (Z.ltb_spec s 0); [lia|]. destruct (Z.leb_spec 64 s); [lia|].
  cbn [orb]. destruct (Z.eqb_spec s 0).
  - subst. cbn [high low]. bits.
  - rewrite Z.geb_leb. destruct (Z.leb_spec 32 s); cbn [high low]; bits.
Qed.

(** C6.  For a 64-bit unsigned [a]: [a << 0 == a]; [a << 64 == 0]; and
    for [0 <= s < 64], [(a << s) >> s] is [a] with its top [s] bits
    cleared, that is the low [64 - s] bits of [a]. *)
Theorem UINT64_shift_invariants (a : t) (s : Z) :
  wf a -> 0 <= s < 64 ->
  shl a 0 = a /\
  shl a 64 = mk 0 0 /\
  to_ull (shr (shl a s) s) = to_ull a mod 2 ^ (64 - s) /\
  to_ull (shr (shl a s) s) = Z.land (to_ull a) (Z.ones (64 - s)).
Proof.
  intros Ha Hs. split; [reflexivity|]. split; [reflexivity|].
  assert (E : to_ull (shr (shl a s) s) = to_ull a mod 2 ^ (64 - s)).
  { rewrite to_ull_shr, to_ull_shl by (try apply shl_wf; assumption).
    generalize (to_ull a). intros A. bits. }
  split; [exact E|]. rewrite E, Z.land_ones by lia. reflexivity.
Qed.

Lemma UINT64_shift_invariants_witness :
  to_ull (shr (shl (mk 4294967295 4294967295) 40) 40) = 16777215.
Proof.
  destruct (UINT64_shift_invariants (mk 4294967295 4294967295) 40)
    as (_ & _ & E & _).
  - split; cbn; unfold is_u32; lia.
  - lia.
  - rewrite E. reflexivity.
Defined.

End UINT64_shifts.

(** ** Negative shift amounts *)

(** C10.  For a negative shift amount [s]: [UINT64] returns 0 from both
    [a << s] and [a >> s]; [INT64] returns 0 from [a << s] but returns [a]
    unchanged from [a >> s]. *)
Theorem negative_shift_asymmetry (a : UINT64.t) (i : INT64.t) (s : Z) :
  s < 0 ->
  UINT64.shl a s = UINT64.mk 0 0 /\
  UINT64.shr a s = UINT64.mk 0 0 /\
  INT64.shl i s = INT64.mk 0 0 /\
  INT64.shr i s = i.
Proof.
  intros Hs. unfold UINT64.shl, UINT64.shr, INT64.shl, INT64.shr.
  destruct (Z.ltb_spec s 0); [|lia]. repeat split.
Qed.

Lemma negative_shift_asymmetry_witness :
  UINT64.shl (UINT64.mk 7 9) (-1) = UINT64.mk 0 0 /\
  UINT64.shr (UINT64.mk 7 9) (-1) = UINT64.mk 0 0 /\
  INT64.shl (INT64.mk (-7) 9) (-1) = INT64.mk 0 0 /\
  INT64.shr (INT64.mk (-7) 9) (-1) = INT64.mk (-7) 9.
Proof. apply (negative_shift_asymmetry (UINT64.mk 7 9) (INT64.mk (-7) 9) (-1)). lia. Defined.

(** ** Bitwise operations modulo 2^32 *)

Section Bits.
Lemma u32_land a b : u32 (Z.land a b) = Z.land (u32 a) (u32 b).
Proof. unfold u32. bits. Qed.
Lemma u32_lor a b : u32 (Z.lor a b) = Z.lor (u32 a) (u32 b).
Proof. unfold u32. bits. Qed.
Lemma u32_lxor a b : u32 (Z.lxor a b) = Z.lxor (u32 a) (u32 b).
Proof. unfold u32. bits. Qed.
Lemma u32_lnot a : u32 (Z.lnot a) = u32 (Z.lnot (u32 a)).
Proof. unfold u32. bits. Qed.
Lemma u32_shiftl a s : 0 <= s -> u32 (Z.shiftl a s) = u32 (Z.shiftl (u32 a) s).
Proof. intros. unfold u32. bits. Qed.
End Bits.

(** ** INT64 and UINT64 on the same bit patterns *)

Section Same.
Import INT64.
Local Abbreviation bits := to_UINT64.

Lemma bits_make h l : bits (make h l) = UINT64.make h l.
Proof. unfold to_UINT64, make, UINT64.make; cbn. now rewrite !u32_idem, u32_s32. Qed.

Lemma bits_mk h l : is_u32 l -> bits (mk h l) = UINT64.mk (u32 h) l.
Proof. intros. unfold to_UINT64, UINT64.make; cbn. now rewrite u32_idem, (u32_small l). Qed.

Lemma bits_add x y : wf x -> wf y -> bits (add x y) = UINT64.add (bits x) (bits y).
Proof.
  intros [Hhx Hlx] [Hhy Hly]. unfold add. rewrite bits_make.
  destruct x as [hx lx], y as [hy ly]; cbn [high low] in *.
  rewrite !bits_mk by assumption. unfold UINT64.add, UINT64.make; cbn [UINT64.high UINT64.low].
  rewrite !u32_idem, !u32_s32. f_equal.
  change (s32 1) with 1; change (s32 0) with 0.
  destruct (u32 (lx + ly) <? lx); [change (s32 1) with 1|change (s32 0) with 0]; word_unfold; zdm.
Qed.

Lemma bits_sub x y : wf x -> wf y -> bits (sub x y) = UINT64.sub (bits x) (bits y).
Proof.
  intros [Hhx Hlx] [Hhy Hly]. unfold sub. rewrite bits_make.
  destruct x as [hx lx], y as [hy ly]; cbn [high low] in *.
  rewrite !bits_mk by assumption. unfold UINT64.sub, UINT64.make; cbn [UINT64.high UINT64.low].
  rewrite !u32_idem, !u32_s32. f_equal.
  destruct (lx <? ly); [change (s32 1) with 1|change (s32 0) with 0]; word_unfold; zdm.
Qed.

Lemma bits_wf x : UINT64.wf (bits x).
Proof. apply wf_make. Qed.

Lemma bits_shl x s : wf x -> bits (shl x s) = UINT64.shl (bits x) s.
Proof.
  intros [Hh Hl]. unfold shl, UINT64.shl.
  destruct ((s <? 0) || (s >=? 64)) eqn:E1; [apply bits_make|].
  destruct (Z.eqb_spec s 0); [reflexivity|].
  assert (0 < s < 64) by (rewrite Z.geb_leb in E1; lia).
  destruct x as [h l]; cbn [high low] in *.
  destruct (s >=? 32) eqn:E2; rewrite bits_make, bits_mk by assumption;
    cbn [UINT64.high UINT64.low]; unfold UINT64.make.
  - rewrite ?u32_idem, ?u32_s32, ?u32_idem. reflexivity.
  - rewrite Z.geb_leb in E2. f_equal.
    rewrite ?u32_idem, ?u32_lor, ?u32_s32, ?u32_idem. f_equal.
    apply u32_shiftl. lia.
Qed.

Lemma bits_and x y : wf x -> wf y -> bits (op_and x y) = op_and (bits x) (bits y).
Proof.
  intros [Hhx Hlx] [Hhy Hly]. destruct x as [hx lx], y as [hy ly]; cbn [high low] in *.
  unfold op_and, Make; cbn. unfold to_UINT64, UINT64.make; cbn.
  rewrite !u32_idem, !u32_s32, !u32_land, !u32_idem. reflexivity.
Qed.

Lemma bits_or x y : wf x -> wf y -> bits (op_or x y) = op_or (bits x) (bits y).
Proof.
  intros [Hhx Hlx] [Hhy Hly]. destruct x as [hx lx], y as [hy ly]; cbn [high low] in *.
  unfold op_or, Make; cbn. unfold to_UINT64, UINT64.make; cbn.
  rewrite !u32_idem, !u32_s32, !u32_lor, !u32_idem. reflexivity.
Qed.

Lemma bits_xor x y : wf x -> wf y -> bits (op_xor x y) = op_xor (bits x) (bits y).
Proof.
  intros [Hhx Hlx] [Hhy Hly]. destruct x as [hx lx], y as [hy ly]; cbn [high low] in *.
  unfold op_xor, Make; cbn. unfold to_UINT64, UINT64.make; cbn.
  rewrite !u32_idem, !u32_s32, !u32_lxor, !u32_idem. reflexivity.
Qed.

Lemma bits_not x : wf x -> bits (op_not x) = op_not (bits x).
Proof.
  intros [Hhx Hlx]. destruct x as [hx lx]; cbn [high low] in *.
  unfold op_not, Make; cbn. unfold to_UINT64, UINT64.make; cbn.
  rewrite !u32_idem, !u32_s32. f_equal; rewrite <- !u32_lnot; reflexivity.
Qed.

Lemma bits_preinc x : wf x -> bits (op_preinc x) = op_preinc (bits x).
Proof.
  intros [Hhx Hlx]. destruct x as [hx lx]; cbn [high low] in *.
  unfold op_preinc; cbn. rewrite (u32_small lx Hlx), !u32_idem.
  destruct (u32 (lx + 1) =? 0); unfold to_UINT64, UINT64.make; cbn;
    rewrite ?u32_idem, ?u32_s32; f_equal; word_unfold; zdm.
Qed.

Lemma bits_predec x : wf x -> bits (op_predec x) = op_predec (bits x).
Proof.
  intros [Hhx Hlx]. destruct x as [hx lx]; cbn [high low] in *.
  unfold op_predec; cbn. rewrite (u32_small lx Hlx), !u32_idem.
  destruct (lx =? 0); unfold to_UINT64, UINT64.make; cbn;
    rewrite ?u32_idem, ?u32_s32; f_equal; word_unfold; zdm.
Qed.

Lemma bits_eq x y : wf x -> wf y -> op_eq x y = op_eq (bits x) (bits y).
Proof.
  intros [Hhx Hlx] [Hhy Hly]. destruct x as [hx lx], y as [hy ly]; cbn [high low] in *.
  unfold op_eq; cbn. rewrite !u32_idem, (u32_small lx), (u32_small ly) by assumption.
  f_equal. destruct (Z.eqb_spec hx hy), (Z.eqb_spec (u32 hx) (u32 hy)); try reflexivity;
    exfalso; word_unfold; zdm.
Qed.

Lemma bits_order_same x y :
  wf x -> wf y -> (high x <? 0) = (high y <? 0) ->
  op_lt x y = op_lt (bits x) (bits y) /\
  op_le x y = op_le (bits x) (bits y) /\
  op_gt x y = op_gt (bits x) (bits y) /\
  op_ge x y = op_ge (bits x) (bits y).
Proof.
  intros [Hhx Hlx] [Hhy Hly]. destruct x as [hx lx], y as [hy ly]; cbn [high low] in *.
  intros Hs. unfold op_lt, op_le, op_gt, op_ge; cbn.
  rewrite !u32_idem, (u32_small lx), (u32_small ly) by assumption.
  rewrite !Z.gtb_ltb.
  assert (Hcmp : forall a b, is_s32 a -> is_s32 b -> (a <? 0) = (b <? 0) ->
                   (a =? b) = (u32 a =? u32 b) /\ (a <? b) = (u32 a <? u32 b)).
  { clear. intros a b Ha Hb. word_unfold.
    destruct (Z.ltb_spec a 0), (Z.ltb_spec b 0); try discriminate; intros _;
      destruct (Z.eqb_spec a b), (Z.eqb_spec (a mod 4294967296) (b mod 4294967296)),
        (Z.ltb_spec a b), (Z.ltb_spec (a mod 4294967296) (b mod 4294967296));
      split; try reflexivity; exfalso; zdm. }
  destruct (Hcmp hx hy Hhx Hhy Hs) as [<- <-].
  destruct (Hcmp hy hx Hhy Hhx (eq_sym Hs)) as [_ <-].
  repeat split.
Qed.

Lemma bits_order_opposite x y :
  wf x -> wf y -> (high x <? 0) <> (high y <? 0) ->
  op_lt x y = negb (op_lt (bits x) (bits y)) /\
  op_le x y = negb (op_le (bits x) (bits y)) /\
  op_gt x y = negb (op_gt (bits x) (bits y)) /\
  op_ge x y = negb (op_ge (bits x) (bits y)).
Proof.
  intros [Hhx Hlx] [Hhy Hly]. destruct x as [hx lx], y as [hy ly]; cbn [high low] in *.
  intros Hs. unfold op_lt, op_le, op_gt, op_ge; cbn.
  rewrite !u32_idem, !Z.gtb_ltb.
  assert (Hcmp : forall a b, is_s32 a -> is_s32 b -> (a <? 0) <> (b <? 0) ->
                   (a =? b) = false /\ (u32 a =? u32 b) = false /\
                   (a <? b) = negb (u32 a <? u32 b)).
  { clear. intros a b Ha Hb. word_unfold.
    destruct (Z.ltb_spec a 0), (Z.ltb_spec b 0); try congruence; intros _;
      destruct (Z.eqb_spec a b), (Z.eqb_spec (a mod 4294967296) (b mod 4294967296)),
        (Z.ltb_spec a b), (Z.ltb_spec (a mod 4294967296) (b mod 4294967296));
      repeat split; try reflexivity; exfalso; zdm. }
  destruct (Hcmp hx hy Hhx Hhy Hs) as (-> & -> & ->).
  destruct (Hcmp hy hx Hhy Hhx (fun E => Hs (eq_sym E))) as (_ & _ & ->).
  repeat split.
Qed.
End Same.

(** ** Two's complement modulo 2^64 *)

Ltac s64_unfold := unfold s64, is_s64 in *; pow2_consts.

Section S64.
Lemma s64_range a : is_s64 (s64 a).
Proof. s64_unfold. destruct (Z.ltb_spec (a mod 18446744073709551616) 9223372036854775808); zdm. Qed.
Lemma s64_small a : is_s64 a -> s64 a = a.
Proof. s64_unfold. intros. destruct (Z.ltb_spec (a mod 18446744073709551616) 9223372036854775808); zdm. Qed.
Lemma s64_mod a : s64 a mod 2 ^ 64 = a mod 2 ^ 64.
Proof. s64_unfold. destruct (Z.ltb_spec (a mod 18446744073709551616) 9223372036854775808); zdm. Qed.
Lemma s64_congr a b : a mod 2 ^ 64 = b mod 2 ^ 64 -> s64 a = s64 b.
Proof. unfold s64. now intros ->. Qed.
Lemma s64_of_mod a : s64 (a mod 2 ^ 64) = s64 a.
Proof. apply s64_congr, Z.mod_mod. lia. Qed.
Lemma s64_add_l a b : s64 (s64 a + b) = s64 (a + b).
Proof. apply s64_congr. now rewrite <- Z.add_mod_idemp_l, s64_mod, Z.add_mod_idemp_l by lia. Qed.
Lemma s64_sub_r a b : s64 (a - s64 b) = s64 (a - b).
Proof. apply s64_congr. now rewrite <- Zminus_mod_idemp_r, s64_mod, Zminus_mod_idemp_r. Qed.
Lemma s64_mul_l a b : s64 (s64 a * b) = s64 (a * b).
Proof. apply s64_congr. now rewrite <- Z.mul_mod_idemp_l, s64_mod, Z.mul_mod_idemp_l by lia. Qed.
Lemma s64_opp a : s64 (- s64 a) = s64 (- a).
Proof. apply (s64_sub_r 0 a). Qed.
End S64.

(** ** INT64: the signed value *)

Section Signed.
Import INT64.
Local Abbreviation bits := to_UINT64.

Lemma to_sll_eq x : wf x -> to_sll x = high x * 2 ^ 32 + low x.
Proof.
  intros [_ Hl]. unfold to_sll. rewrite Z.shiftl_mul_pow2 by lia.
  apply lor_high_low; [lia|exact Hl].
Qed.

Lemma to_sll_range x : wf x -> is_s64 (to_sll x).
Proof. intros Hx. rewrite to_sll_eq by assumption. destruct Hx. s64_unfold. word_unfold. lia. Qed.

Lemma INT64_wf_make h l : wf (make h l).
Proof. split; [apply s32_range|apply u32_range]. Qed.

Lemma to_ull_bits x : wf x -> UINT64.to_ull (bits x) = to_sll x mod 2 ^ 64.
Proof.
  intros Hx. rewrite to_ull_eq, to_sll_eq by (assumption || apply bits_wf).
  destruct x as [h l], Hx as [Hh Hl]; cbn in *. word_unfold. zdm.
Qed.

Lemma to_sll_bits x : wf x -> to_sll x = s64 (UINT64.to_ull (bits x)).
Proof.
  intros Hx. rewrite to_ull_bits, s64_of_mod, s64_small by (assumption || now apply to_sll_range).
  reflexivity.
Qed.

Lemma to_sll_inj x y : wf x -> wf y -> to_sll x = to_sll y -> x = y.
Proof.
  intros Hx Hy. rewrite !to_sll_eq by assumption.
  destruct x as [hx lx], y as [hy ly], Hx, Hy; cbn in *. word_unfold.
  intros. assert (hx = hy) by lia. assert (lx = ly) by lia. congruence.
Qed.

(** [INT64((INT32)q.High(), q.Low())] *)
Lemma bits_of_UINT64 q :
  UINT64.wf q -> bits (make (s32 (UINT64.high q)) (UINT64.low q)) = q.
Proof.
  intros [Hh Hl]. rewrite bits_make. destruct q as [h l]; cbn in *.
  unfold UINT64.make. now rewrite u32_s32, !u32_small.
Qed.

Lemma to_sll_of_UINT64 q :
  UINT64.wf q -> to_sll (make (s32 (UINT64.high q)) (UINT64.low q)) = s64 (UINT64.to_ull q).
Proof.
  intros Hq. rewrite to_sll_bits, bits_of_UINT64 by (assumption || apply INT64_wf_make).
  reflexivity.
Qed.

Lemma to_sll_add x y : wf x -> wf y -> to_sll (add x y) = s64 (to_sll x + to_sll y).
Proof.
  intros Hx Hy. rewrite to_sll_bits, bits_add, to_ull_add, !to_ull_bits, s64_of_mod
    by (assumption || apply bits_wf || apply INT64_wf_make).
  apply s64_congr. now rewrite <- Z.add_mod by lia.
Qed.

Lemma to_sll_sub x y : wf x -> wf y -> to_sll (sub x y) = s64 (to_sll x - to_sll y).
Proof.
  intros Hx Hy. rewrite to_sll_bits, bits_sub, to_ull_sub, !to_ull_bits, s64_of_mod
    by (assumption || apply bits_wf || apply INT64_wf_make).
  apply s64_congr. now rewrite <- Zminus_mod.
Qed.

Lemma to_sll_neg x : wf x -> to_sll (neg x) = s64 (- to_sll x).
Proof. intros Hx. unfold neg. rewrite to_sll_sub by (assumption || apply INT64_wf_make). reflexivity. Qed.

Lemma to_sll_mul x y : wf x -> wf y -> to_sll (mul x y) = s64 (to_sll x * to_sll y).
Proof.
  intros Hx Hy. unfold mul. fold (bits x) (bits y).
  rewrite to_sll_of_UINT64 by apply mul_wf.
  rewrite to_ull_mul, !to_ull_bits, s64_of_mod by (assumption || apply bits_wf).
  apply s64_congr. now rewrite <- Z.mul_mod by lia.
Qed.
End Signed.

(** ** INT64: division and modulo *)

Section SignedDiv.
Import INT64.
Local Abbreviation bits := to_UINT64.

Lemma INT64_nonzero_test y :
  wf y -> (high y =? 0) && (low y =? 0) = (to_sll y =? 0).
Proof.
  intros Hy. rewrite to_sll_eq by assumption. destruct Hy as [Hh Hl]. word_unfold.
  destruct (Z.eqb_spec (high y) 0), (Z.eqb_spec (low y) 0),
    (Z.eqb_spec (high y * 4294967296 + low y) 0); cbn; lia.
Qed.

Lemma high_sign x : wf x -> (high x <? 0) = (to_sll x <? 0).
Proof.
  intros Hx. rewrite to_sll_eq by assumption. destruct Hx as [Hh Hl]. word_unfold.
  destruct (Z.ltb_spec (high x) 0), (Z.ltb_spec (high x * 4294967296 + low x) 0); lia.
Qed.

Lemma neg_wf x : wf (neg x).
Proof. apply INT64_wf_make. Qed.

(** The magnitude handed to the unsigned core. *)
Lemma to_ull_abs x :
  wf x ->
  wf (if high x <? 0 then neg x else x) /\
  UINT64.to_ull (bits (if high x <? 0 then neg x else x)) = Z.abs (to_sll x).
Proof.
  intros Hx. pose proof (to_sll_range x Hx) as Hr. rewrite high_sign by assumption.
  destruct (Z.ltb_spec (to_sll x) 0).
  - split; [apply neg_wf|]. rewrite to_ull_bits, to_sll_neg, s64_mod by (assumption || apply neg_wf).
    s64_unfold. zdm.
  - split; [assumption|]. rewrite to_ull_bits by assumption. s64_unfold. zdm.
Qed.

Lemma div_wf x y : wf x -> wf (div x y).
Proof.
  intros Hx. unfold div. destruct ((high y =? 0) && (low y =? 0)); [apply INT64_wf_make|].
  destruct (negb _); [apply neg_wf|apply INT64_wf_make].
Qed.

Lemma to_sll_div x y :
  wf x -> wf y -> to_sll y <> 0 ->
  to_sll (div x y) = s64 (Z.quot (to_sll x) (to_sll y)).
Proof.
  intros Hx Hy Hnz. unfold div. rewrite INT64_nonzero_test by assumption.
  destruct (Z.eqb_spec (to_sll y) 0) as [|_]; [contradiction|].
  destruct (to_ull_abs x Hx) as [Hwx Eax]. destruct (to_ull_abs y Hy) as [Hwy Eay].
  set (absThis := if high x <? 0 then neg x else x) in *.
  set (absOther := if high y <? 0 then neg y else y) in *.
  fold (bits absThis) (bits absOther).
  destruct (to_ull_div_rem (bits absThis) (bits absOther)) as (Hwq & _ & Eq & _);
    [apply bits_wf|apply bits_wf|rewrite Eay; lia|].
  rewrite Eax, Eay in Eq.
  set (q := UINT64.div (bits absThis) (bits absOther)) in *.
  pose proof (to_sll_of_UINT64 q Hwq) as Er. rewrite Eq in Er.
  rewrite !high_sign by assumption.
  rewrite (Z.quot_div (to_sll x) (to_sll y) Hnz).
  assert (Hq0 : to_sll x = 0 -> Z.abs (to_sll x) / Z.abs (to_sll y) = 0).
  { intros ->. apply Z.div_0_l. lia. }
  destruct (Z.ltb_spec (to_sll x) 0), (Z.ltb_spec (to_sll y) 0); cbn [Bool.eqb negb].
  - rewrite Er. f_equal. nia.
  - rewrite to_sll_neg, Er, s64_opp by apply INT64_wf_make. f_equal. nia.
  - rewrite to_sll_neg, Er, s64_opp by apply INT64_wf_make. f_equal.
    destruct (Z.eq_dec (to_sll x) 0) as [E0|N0]; [rewrite (Hq0 E0); lia|nia].
  - rewrite Er. f_equal.
    destruct (Z.eq_dec (to_sll x) 0) as [E0|N0]; [rewrite (Hq0 E0); lia|nia].
Qed.

Lemma quot_in_range a b :
  is_s64 a -> is_s64 b -> b <> 0 -> ~ (a = - 2 ^ 63 /\ b = -1) ->
  is_s64 (Z.quot a b).
Proof.
  intros Ha Hb Hnz Hov. s64_unfold.
  pose proof (Z.quot_abs a b Hnz) as E.
  assert (Z.abs a / Z.abs b <= Z.abs a) by (apply Z.div_le_upper_bound; nia).
  rewrite Z.quot_div_nonneg in E by lia.
  destruct (Z.eq_dec (Z.abs b) 1) as [E1|N1].
  - rewrite E1, Z.div_1_r in E.
    assert (Z.quot a b = Z.sgn a * Z.sgn b * Z.abs a)
      by (rewrite (Z.quot_div a b Hnz), E1, Z.div_1_r; reflexivity).
    nia.
  - assert (Z.abs a / Z.abs b <= Z.abs a / 2)
      by (apply Z.div_le_compat_l; lia).
    assert (Z.abs a / 2 < 9223372036854775808) by zdm.
    lia.
Qed.

Lemma to_sll_rem x y :
  wf x -> wf y -> to_sll y <> 0 ->
  to_sll (rem x y) = Z.rem (to_sll x) (to_sll y).
Proof.
  intros Hx Hy Hnz. unfold rem. rewrite INT64_nonzero_test by assumption.
  destruct (Z.eqb_spec (to_sll y) 0) as [|_]; [contradiction|].
  rewrite to_sll_sub, to_sll_mul, to_sll_div, s64_mul_l, s64_sub_r
    by (try assumption; try apply INT64_wf_make; try now apply div_wf).
  rewrite (Z.mul_comm _ (to_sll y)), <- Z.rem_eq by assumption.
  apply s64_small. pose proof (Z.rem_bound_abs (to_sll x) (to_sll y) Hnz).
  pose proof (to_sll_range y Hy). s64_unfold. lia.
Qed.

Lemma rem_wf x y : wf (rem x y).
Proof. unfold rem. destruct ((high y =? 0) && (low y =? 0)); apply INT64_wf_make. Qed.

Lemma div_mul_add_rem x y :
  wf x -> wf y -> to_sll y <> 0 -> add (mul (div x y) y) (rem x y) = x.
Proof.
  intros Hx Hy Hnz. apply to_sll_inj; [apply INT64_wf_make|assumption|].
  rewrite to_sll_add, to_sll_mul, to_sll_div, to_sll_rem, s64_mul_l, s64_add_l
    by (try assumption; try apply INT64_wf_make; try apply rem_wf; try now apply div_wf).
  rewrite (Z.mul_comm _ (to_sll y)), <- Z.quot_rem'.
  apply s64_small. now apply to_sll_range.
Qed.
End SignedDiv.

(** ** Signed division *)

Section INT64_div_claims.
Import INT64.

(** C4.  For 64-bit signed [a] and [b] with [b <> 0], [operator/] of
    [INT64] divides the absolute values with the unsigned core and
    restores the sign; its result is the quotient truncated toward zero
    (read modulo 2^64, which only matters for [MIN / -1], where the
    native quotient overflows), [operator%] is the matching remainder,
    and [(a / b) * b + (a % b) == a]. *)
Theorem INT64_div_truncates (a b : t) :
  wf a -> wf b -> to_sll b <> 0 ->
  div a b =
    (let absThis := if high a <? 0 then neg a else a in
     let absOther := if high b <? 0 then neg b else b in
     let quotient := UINT64.div (to_UINT64 absThis) (to_UINT64 absOther) in
     let result := make (s32 (UINT64.high quotient)) (UINT64.low quotient) in
     if negb (Bool.eqb (high a <? 0) (high b <? 0)) then neg result else result) /\
  wf (div a b) /\ wf (rem a b) /\
  to_sll (div a b) = s64 (Z.quot (to_sll a) (to_sll b)) /\
  (~ (to_sll a = - 2 ^ 63 /\ to_sll b = -1) ->
   to_sll (div a b) = Z.quot (to_sll a) (to_sll b)) /\
  to_sll (rem a b) = Z.rem (to_sll a) (to_sll b) /\
  add (mul (div a b) b) (rem a b) = a.
Proof.
  intros Ha Hb Hnz. split.
  { unfold div. rewrite INT64_nonzero_test by assumption.
    destruct (Z.eqb_spec (to_sll b) 0); [contradiction|reflexivity]. }
  split; [now apply div_wf|]. split; [apply rem_wf|].
  split; [now apply to_sll_div|]. split.
  { intros Hov. rewrite to_sll_div by assumption. apply s64_small.
    apply quot_in_range; try assumption; now apply to_sll_range. }
  split; [now apply to_sll_rem|now apply div_mul_add_rem].
Qed.

Lemma INT64_div_truncates_witness :
  to_sll (div (mk (-1) 4294967289) (mk 0 2)) = -3 /\
  to_sll (rem (mk (-1) 4294967289) (mk 0 2)) = -1.
Proof.
  destruct (INT64_div_truncates (mk (-1) 4294967289) (mk 0 2))
    as (_ & _ & _ & _ & Hq & Hr & _).
  - split; cbn; unfold is_s32, is_u32; lia.
  - split; cbn; unfold is_s32, is_u32; lia.
  - vm_compute. discriminate.
  - rewrite Hq, Hr.
    + split; reflexivity.
    + vm_compute. intros [E _]. discriminate E.
Defined.

End INT64_div_claims.

(** ** The operators the two classes have in common *)

Section Shared_operator_claims.
Import INT64.

(** C3, as stated, fails: the ordering comparisons are expanded from the
    same macro text in both classes, but [INT64] compares its high word
    as an [INT32].  On the bit patterns 0x8000000000000000 and 0 the
    signed class answers [a < b], the unsigned one does not. *)
Lemma ordering_differs_between_classes :
  let a := mk (-2147483648) 0 in
  let b := mk 0 0 in
  wf a /\ wf b /\
  op_lt a b = true /\ op_lt (to_UINT64 a) (to_UINT64 b) = false /\
  op_ge a b = false /\ op_ge (to_UINT64 a) (to_UINT64 b) = true.
Proof.
  cbv zeta. split; [|split]; [split; cbn; unfold is_s32, is_u32; lia ..|].
  repeat split.
Qed.

(** C3, amended.  On the same 64-bit patterns [INT64] and [UINT64]
    produce the same result pattern for [+], [-], [&], [|], [^], [~],
    [<<], [&=], [|=], [^=], prefix and postfix [++] and [--], and the same
    answer for [==] and [!=].  The ordering comparisons [<], [<=], [>],
    [>=] agree when the two high words have the same sign bit and give
    opposite answers when they do not. *)
Theorem INT64_UINT64_shared_operators (x y : t) (s : Z) :
  wf x -> wf y ->
  to_UINT64 (add x y) = UINT64.add (to_UINT64 x) (to_UINT64 y) /\
  to_UINT64 (sub x y) = UINT64.sub (to_UINT64 x) (to_UINT64 y) /\
  to_UINT64 (op_and x y) = op_and (to_UINT64 x) (to_UINT64 y) /\
  to_UINT64 (op_or x y) = op_or (to_UINT64 x) (to_UINT64 y) /\
  to_UINT64 (op_xor x y) = op_xor (to_UINT64 x) (to_UINT64 y) /\
  to_UINT64 (op_not x) = op_not (to_UINT64 x) /\
  to_UINT64 (shl x s) = UINT64.shl (to_UINT64 x) s /\
  to_UINT64 (op_preinc x) = op_preinc (to_UINT64 x) /\
  to_UINT64 (op_predec x) = op_predec (to_UINT64 x) /\
  to_UINT64 (op_and_assign x y) = op_and_assign (to_UINT64 x) (to_UINT64 y) /\
  to_UINT64 (op_or_assign x y) = op_or_assign (to_UINT64 x) (to_UINT64 y) /\
  to_UINT64 (op_xor_assign x y) = op_xor_assign (to_UINT64 x) (to_UINT64 y) /\
  prod_map to_UINT64 to_UINT64 (op_postinc x) = op_postinc (to_UINT64 x) /\
  prod_map to_UINT64 to_UINT64 (op_postdec x) = op_postdec (to_UINT64 x) /\
  op_eq x y = op_eq (to_UINT64 x) (to_UINT64 y) /\
  op_ne x y = op_ne (to_UINT64 x) (to_UINT64 y) /\
  ((high x <? 0) = (high y <? 0) ->
   op_lt x y = op_lt (to_UINT64 x) (to_UINT64 y) /\
   op_le x y = op_le (to_UINT64 x) (to_UINT64 y) /\
   op_gt x y = op_gt (to_UINT64 x) (to_UINT64 y) /\
   op_ge x y = op_ge (to_UINT64 x) (to_UINT64 y)) /\
  ((high x <? 0) <> (high y <? 0) ->
   op_lt x y = negb (op_lt (to_UINT64 x) (to_UINT64 y)) /\
   op_le x y = negb (op_le (to_UINT64 x) (to_UINT64 y)) /\
   op_gt x y = negb (op_gt (to_UINT64 x) (to_UINT64 y)) /\
   op_ge x y = negb (op_ge (to_UINT64 x) (to_UINT64 y))).
Proof.
  intros Hx Hy.
  split; [now apply bits_add|]. split; [now apply bits_sub|].
  split; [now apply bits_and|]. split; [now apply bits_or|].
  split; [now apply bits_xor|]. split; [now apply bits_not|].
  split; [now apply bits_shl|]. split; [now apply bits_preinc|].
  split; [now apply bits_predec|].
  split; [exact (bits_and x y Hx Hy)|]. split; [exact (bits_or x y Hx Hy)|].
  split; [exact (bits_xor x y Hx Hy)|].
  split; [unfold op_postinc; cbn; f_equal; now apply bits_preinc|].
  split; [unfold op_postdec; cbn; f_equal; now apply bits_predec|].
  split; [now apply bits_eq|].
  split; [unfold op_ne; f_equal; now apply bits_eq|].
  split; [now apply bits_order_same|now apply bits_order_opposite].
Qed.

Lemma INT64_UINT64_shared_operators_witness :
  to_UINT64 (add (mk (-1) 4294967295) (mk 0 1)) = UINT64.mk 0 0 /\
  to_UINT64 (shl (mk (-1) 4294967295) 33) = UINT64.mk 4294967294 0 /\
  op_lt (mk (-1) 4294967295) (mk 0 1) = true.
Proof.
  destruct (INT64_UINT64_shared_operators (mk (-1) 4294967295) (mk 0 1) 33)
    as (Ea & _ & _ & _ & _ & _ & Es & _ & _ & _ & _ & _ & _ & _ & _ & _ & _ & Eo).
  - split; cbn; unfold is_s32, is_u32; lia.
  - split; cbn; unfold is_s32, is_u32; lia.
  - rewrite Ea, Es. destruct Eo as (El & _); [vm_compute; discriminate|].
    rewrite El. repeat split.
Defined.

End Shared_operator_claims.

(** ** STACK_ARRAY_STORAGE: packing and decoding *)

Lemma u8_idem x : u8 (u8 x) = u8 x.
Proof. unfold u8. apply Z.mod_mod. lia. Qed.

Section WordBytes.
Lemma word_set_get_same W sh w v :
  0 <= sh -> sh + 8 <= W ->
  (Z.land
     (Z.shiftr
        (Z.lor (Z.land w ((Z.lnot ((Z.shiftl (Z.ones 8 mod 2 ^ W) sh) mod 2 ^ W)) mod 2 ^ W))
               ((Z.shiftl ((v mod 2 ^ 8) mod 2 ^ W) sh) mod 2 ^ W))
        sh)
     (Z.ones 8 mod 2 ^ W)) mod 2 ^ 8
  = v mod 2 ^ 8.
Proof. intros. bits. Qed.

Lemma word_set_get_other W sh sh' w v :
  0 <= sh -> sh + 8 <= W -> 0 <= sh' -> sh' + 8 <= W ->
  sh + 8 <= sh' \/ sh' + 8 <= sh ->
  (Z.land
     (Z.shiftr
        (Z.lor (Z.land w ((Z.lnot ((Z.shiftl (Z.ones 8 mod 2 ^ W) sh) mod 2 ^ W)) mod 2 ^ W))
               ((Z.shiftl ((v mod 2 ^ 8) mod 2 ^ W) sh) mod 2 ^ W))
        sh')
     (Z.ones 8 mod 2 ^ W)) mod 2 ^ 8
  = (Z.land (Z.shiftr w sh') (Z.ones 8 mod 2 ^ W)) mod 2 ^ 8.
Proof. intros. bits. Qed.

Lemma word_gather_step C N u :
  0 <= N -> N + 8 <= C ->
  (Z.lor (u mod 2 ^ N)
         (Z.shiftl ((Z.land (Z.shiftr u N) (Z.ones 8 mod 2 ^ C)) mod 2 ^ 8 mod 2 ^ C) N))
    mod 2 ^ C
  = u mod 2 ^ (N + 8).
Proof. intros. bits. Qed.
End WordBytes.

Section Storage_facts.
Import STACK_ARRAY_STORAGE.
Variable WordBytes CharBytes : nat.
Variable TChar_signed : bool.
Hypothesis WordBytes_pos : (0 < WordBytes)%nat.

Local Abbreviation SetByte := (SetByte WordBytes).
Local Abbreviation GetByte := (GetByte WordBytes).

Lemma length_SetByte ws k v : length (SetByte ws k v) = length ws.
Proof. unfold STACK_ARRAY_STORAGE.SetByte. apply length_insert. Qed.

Lemma byte_shift_bounds k :
  0 <= Z.of_nat (Nat.modulo k WordBytes * 8) /\
  Z.of_nat (Nat.modulo k WordBytes * 8) + 8 <= 8 * Z.of_nat WordBytes.
Proof.
  pose proof (Nat.mod_upper_bound k WordBytes). lia.
Qed.

Lemma byte_index_split k k' :
  k <> k' -> Nat.div k WordBytes = Nat.div k' WordBytes ->
  Z.of_nat (Nat.modulo k WordBytes * 8) + 8 <= Z.of_nat (Nat.modulo k' WordBytes * 8) \/
  Z.of_nat (Nat.modulo k' WordBytes * 8) + 8 <= Z.of_nat (Nat.modulo k WordBytes * 8).
Proof.
  intros Hne Hq.
  pose proof (Nat.div_mod_eq k WordBytes). pose proof (Nat.div_mod_eq k' WordBytes).
  assert (Nat.modulo k WordBytes <> Nat.modulo k' WordBytes) by (rewrite Hq in *; lia).
  lia.
Qed.

Lemma byte_index_in_range (ws : list Z) k :
  (k < length ws * WordBytes)%nat -> (Nat.div k WordBytes < length ws)%nat.
Proof. intros. apply Nat.Div0.div_lt_upper_bound. lia. Qed.

Lemma GetByte_SetByte_eq ws k v :
  (k < length ws * WordBytes)%nat -> GetByte (SetByte ws k v) k = u8 v.
Proof.
  intros Hk. unfold STACK_ARRAY_STORAGE.GetByte, STACK_ARRAY_STORAGE.SetByte.
  rewrite list_lookup_total_insert_eq by now apply byte_index_in_range.
  destruct (byte_shift_bounds k). unfold u8, usize.
  change 255 with (Z.ones 8). now apply word_set_get_same.
Qed.

Lemma GetByte_SetByte_ne ws k k' v :
  k <> k' -> GetByte (SetByte ws k v) k' = GetByte ws k'.
Proof.
  intros Hne. unfold STACK_ARRAY_STORAGE.GetByte, STACK_ARRAY_STORAGE.SetByte.
  destruct (decide (Nat.div k WordBytes = Nat.div k' WordBytes)) as [Hq|Hq].
  - destruct (decide (Nat.div k WordBytes < length ws)%nat) as [Hin|Hout].
    + rewrite <- Hq, list_lookup_total_insert_eq by assumption.
      destruct (byte_shift_bounds k), (byte_shift_bounds k').
      pose proof (byte_index_split k k' Hne Hq).
      unfold u8, usize. change 255 with (Z.ones 8).
      now apply word_set_get_other.
    + rewrite list_insert_ge by lia. reflexivity.
  - rewrite list_lookup_total_insert_ne by assumption. reflexivity.
Qed.

Lemma GetByte_SetByte ws k k' v :
  (k < length ws * WordBytes)%nat ->
  GetByte (SetByte ws k v) k' = if decide (k' = k) then u8 v else GetByte ws k'.
Proof.
  intros Hk. destruct (decide (k' = k)) as [->|Hne].
  - now apply GetByte_SetByte_eq.
  - apply GetByte_SetByte_ne. congruence.
Qed.

Local Abbreviation pack_bytes := (pack_bytes WordBytes CharBytes).
Local Abbreviation pack_elements := (pack_elements WordBytes CharBytes).
Local Abbreviation to_U := (to_U CharBytes).

Local Abbreviation byte_of := (byte_of CharBytes).

Lemma pack_bytes_S n ws i v :
  pack_bytes (S n) ws i v
  = STACK_ARRAY_STORAGE.SetByte WordBytes (pack_bytes n ws i v) (i * CharBytes + n) (byte_of v n).
Proof.
  unfold STACK_ARRAY_STORAGE.pack_bytes. now rewrite seq_S, fold_left_app.
Qed.

Lemma length_pack_bytes n ws i v : length (pack_bytes n ws i v) = length ws.
Proof.
  induction n as [|n IH]; [reflexivity|]. now rewrite pack_bytes_S, length_SetByte.
Qed.

Lemma GetByte_pack_bytes n ws i v k :
  (i * CharBytes + n <= length ws * WordBytes)%nat ->
  GetByte (pack_bytes n ws i v) k
  = if decide (i * CharBytes <= k < i * CharBytes + n)%nat
    then byte_of v (k - i * CharBytes)
    else GetByte ws k.
Proof.
  induction n as [|n IH]; intros Hcap.
  - cbn. destruct (decide _); [lia|reflexivity].
  - rewrite pack_bytes_S, GetByte_SetByte by (rewrite length_pack_bytes; lia).
    rewrite IH by lia. clear IH. unfold STACK_ARRAY_STORAGE.byte_of at 1. rewrite u8_idem. fold (byte_of v n).
    destruct (decide (k = (i * CharBytes + n)%nat)) as [->|Hne].
    + destruct (decide _) as [?|Hn]; [|exfalso; apply Hn; lia]. f_equal. lia.
    + destruct (decide _), (decide _); try lia; reflexivity.
Qed.

Lemma pack_elements_S n src ws :
  pack_elements (S n) src ws
  = pack_bytes CharBytes (pack_elements n src ws) n (to_U (src !!! n)).
Proof.
  unfold STACK_ARRAY_STORAGE.pack_elements. now rewrite seq_S, fold_left_app.
Qed.

Lemma length_pack_elements n src ws : length (pack_elements n src ws) = length ws.
Proof.
  induction n as [|n IH]; [reflexivity|]. now rewrite pack_elements_S, length_pack_bytes.
Qed.

Lemma GetByte_pack_elements n src ws i b :
  (n * CharBytes <= length ws * WordBytes)%nat ->
  (i < n)%nat -> (b < CharBytes)%nat ->
  GetByte (pack_elements n src ws) (i * CharBytes + b) = byte_of (to_U (src !!! i)) b.
Proof.
  induction n as [|n IH]; intros Hcap Hi Hb; [lia|].
  rewrite pack_elements_S, GetByte_pack_bytes by (rewrite length_pack_elements; lia).
  destruct (decide _) as [Hin|Hout].
  - assert (i = n) by nia. subst i. f_equal. lia.
  - assert (i < n)%nat by nia. apply IH; lia.
Qed.

Lemma capacity N : (N * CharBytes <= WordCount WordBytes CharBytes N * WordBytes)%nat.
Proof.
  unfold WordCount, SizeBytes.
  pose proof (Nat.div_mod_eq (N * CharBytes + WordBytes - 1) WordBytes).
  pose proof (Nat.mod_upper_bound (N * CharBytes + WordBytes - 1) WordBytes).
  nia.
Qed.

Local Abbreviation gather_bytes := (gather_bytes WordBytes CharBytes).

Lemma gather_bytes_S n ws base :
  gather_bytes (S n) ws base
  = to_U (Z.lor (gather_bytes n ws base)
                (Z.shiftl (to_U (GetByte ws (base + n))) (Z.of_nat (n * 8)))).
Proof.
  unfold STACK_ARRAY_STORAGE.gather_bytes. now rewrite seq_S, fold_left_app.
Qed.

Lemma gather_bytes_spec n ws base u :
  (n <= CharBytes)%nat ->
  (forall b, (b < n)%nat -> GetByte ws (base + b) = byte_of u b) ->
  gather_bytes n ws base = u mod 2 ^ Z.of_nat (n * 8).
Proof.
  induction n as [|n IH]; intros Hn Hget.
  - cbn. now rewrite Z.mod_1_r.
  - rewrite gather_bytes_S, IH, Hget by (try lia; intros; apply Hget; lia).
    unfold STACK_ARRAY_STORAGE.byte_of, u8, STACK_ARRAY_STORAGE.to_U. change 255 with (Z.ones 8).
    rewrite word_gather_step by lia. f_equal. f_equal. lia.
Qed.

Lemma to_TChar_to_U v :
  (0 < CharBytes)%nat -> is_TChar CharBytes TChar_signed v ->
  to_TChar CharBytes TChar_signed (to_U v) = v.
Proof.
  intros Hc. unfold is_TChar, to_TChar, STACK_ARRAY_STORAGE.to_U.
  rewrite Z.mod_mod by lia.
  assert (HM : 2 ^ (8 * Z.of_nat CharBytes) = 2 * 2 ^ (8 * Z.of_nat CharBytes - 1)).
  { rewrite <- Z.pow_succ_r by lia. f_equal. lia. }
  assert (0 < 2 ^ (8 * Z.of_nat CharBytes - 1)) by (apply Z.pow_pos_nonneg; lia).
  revert HM. generalize (2 ^ (8 * Z.of_nat CharBytes)) as M.
  generalize dependent (2 ^ (8 * Z.of_nat CharBytes - 1)). intros H HH M HM.
  destruct TChar_signed; cbn [andb]; intros Hv.
  - destruct (Z.neg_nonneg_cases v) as [Hneg|Hpos].
    + assert (E : v mod M = v + M).
      { rewrite <- (Z.mod_add v 1 M), Z.mul_1_l by lia. apply Z.mod_small. lia. }
      rewrite E. destruct (Z.leb_spec H (v + M)); lia.
    + rewrite Z.mod_small by lia. destruct (Z.leb_spec H v); lia.
  - apply Z.mod_small. lia.
Qed.

Lemma index_construct src i :
  (0 < CharBytes)%nat -> Forall (is_TChar CharBytes TChar_signed) src ->
  (i < length src)%nat ->
  index WordBytes CharBytes TChar_signed (construct WordBytes CharBytes src) i = src !!! i.
Proof.
  intros Hc Hsrc Hi. unfold index, construct.
  rewrite (gather_bytes_spec CharBytes _ _ (to_U (src !!! i))); [|lia|].
  - assert (E : to_U (src !!! i) mod 2 ^ Z.of_nat (CharBytes * 8) = to_U (src !!! i)).
    { unfold STACK_ARRAY_STORAGE.to_U.
      replace (Z.of_nat (CharBytes * 8)) with (8 * Z.of_nat CharBytes) by lia.
      apply Z.mod_mod. lia. }
    rewrite E. apply to_TChar_to_U; [assumption|].
    now apply Forall_lookup_total_1.
  - intros b Hb. apply GetByte_pack_elements; try assumption.
    rewrite length_replicate. apply capacity.
Qed.
End Storage_facts.




(** C7.  For a literal array [src] of [N] elements of a type 1, 2 or 4
    bytes wide, and every index [i < N], [operator[]] on the storage the
    constructor builds returns [src[i]]. *)
Theorem STACK_ARRAY_STORAGE_roundtrip
    (WordBytes CharBytes : nat) (TChar_signed : bool) (src : list Z) (i : nat) :
  WordBytes = 4%nat \/ WordBytes = 8%nat ->
  CharBytes = 1%nat \/ CharBytes = 2%nat \/ CharBytes = 4%nat ->
  Forall (STACK_ARRAY_STORAGE.is_TChar CharBytes TChar_signed) src ->
  (i < length src)%nat ->
  STACK_ARRAY_STORAGE.index WordBytes CharBytes TChar_signed
    (STACK_ARRAY_STORAGE.construct WordBytes CharBytes src) i
  = src !!! i.
Proof.
  intros HW HC Hsrc Hi. apply index_construct; try assumption; lia.
Qed.

Lemma STACK_ARRAY_STORAGE_roundtrip_witness :
  STACK_ARRAY_STORAGE.index 8 2 false
    (STACK_ARRAY_STORAGE.construct 8 2 [72; 105; 8364; 0; 65535]) 2
  = 8364.
Proof.
  apply (STACK_ARRAY_STORAGE_roundtrip 8 2 false [72; 105; 8364; 0; 65535] 2).
  - right; reflexivity.
  - right; left; reflexivity.
  - repeat constructor; cbn; lia.
  - cbn; lia.
Defined.

(** ** memcpy *)

Section Memcpy.
Import Allocator.

Lemma copy_loop_frame n i d s (mem : memory) a :
  ~ (d + i <= a < d + i + Z.of_nat n) -> copy_loop n i d s mem a = mem a.
Proof.
  revert i mem. induction n as [|n IH]; intros i mem Ha; [reflexivity|].
  cbn [copy_loop]. rewrite IH by lia. apply fn_lookup_insert_ne. lia.
Qed.

Lemma copy_loop_snoc n i d s (mem : memory) :
  copy_loop (S n) i d s mem
  = <[d + (i + Z.of_nat n) := copy_loop n i d s mem (s + (i + Z.of_nat n))]>
      (copy_loop n i d s mem).
Proof.
  revert i mem. induction n as [|n IH]; intros i mem.
  - cbn. now rewrite !Z.add_0_r.
  - change (copy_loop (S (S n)) i d s mem)
      with (copy_loop (S n) (i + 1) d s (<[d + i := mem (s + i)]> mem)).
    rewrite IH. cbn [copy_loop].
    now replace (i + 1 + Z.of_nat n) with (i + Z.of_nat (S n)) by lia.
Qed.

Lemma copy_loop_app n m i d s (mem : memory) :
  copy_loop (n + m) i d s mem
  = copy_loop m (i + Z.of_nat n) d s (copy_loop n i d s mem).
Proof.
  revert i mem. induction n as [|n IH]; intros i mem.
  - cbn. now rewrite Z.add_0_r.
  - cbn [Nat.add copy_loop]. rewrite IH. f_equal. lia.
Qed.

(** Byte [j] of the destination ends up holding what the source byte [j]
    held when iteration [j] read it. *)
Lemma copy_loop_written n d s (mem : memory) j :
  (j < n)%nat ->
  copy_loop n 0 d s mem (d + Z.of_nat j)
  = copy_loop j 0 d s mem (s + Z.of_nat j).
Proof.
  intros Hj. replace n with (S j + (n - S j))%nat by lia.
  rewrite copy_loop_app, copy_loop_frame by lia.
  rewrite copy_loop_snoc. cbn. apply fn_lookup_insert.
Qed.

Lemma copy_loop_forward n d s (mem : memory) j :
  d <= s \/ s + Z.of_nat n <= d -> (j < n)%nat ->
  copy_loop n 0 d s mem (d + Z.of_nat j) = mem (s + Z.of_nat j).
Proof.
  intros Hsep Hj. rewrite copy_loop_written by assumption.
  apply copy_loop_frame. lia.
Qed.

(** C9, as stated, fails when the destination starts inside the source
    range: the loop copies upward, so it overwrites source bytes before
    it reads them.  Copying 2 bytes from address 100 to address 101
    leaves in the second destination byte the first source byte, not
    the second. *)
Lemma memcpy_overlap_differs :
  let mem : memory := <[100 := Byte.x01]> (<[101 := Byte.x02]> (fun _ => Byte.x00)) in
  let r := memcpy 101 100 2 mem in
  fst r = 101 /\
  snd r (101 + 1) = Byte.x01 /\ mem (100 + 1) = Byte.x02 /\
  snd r (101 + 1) <> mem (100 + 1).
Proof. vm_compute. repeat split. discriminate. Qed.

(** C9, amended.  When [dest] is null, [src] is null or [count] is zero,
    [memcpy] writes nothing and returns [dest].  Otherwise it returns
    [dest], leaves every byte outside [dest .. dest + count) as it was,
    and sets each of the first [count] bytes of [dest] to the byte the
    source held when the loop read it; that is the byte the source held
    at the call whenever [dest] does not lie inside the source range
    after its first byte ([dest <= src] or [src + count <= dest]).
    [Allocator::CopyMemory] is the same function. *)
Theorem memcpy_copies (dest src count : Z) (mem : memory) :
  0 <= count ->
  CopyMemory dest src count mem = memcpy dest src count mem /\
  (dest = 0 \/ src = 0 \/ count = 0 -> memcpy dest src count mem = (dest, mem)) /\
  fst (memcpy dest src count mem) = dest /\
  (forall a, ~ (dest <= a < dest + count) ->
             snd (memcpy dest src count mem) a = mem a) /\
  (dest <> 0 -> src <> 0 -> forall i, 0 <= i < count ->
     snd (memcpy dest src count mem) (dest + i)
     = copy_loop (Z.to_nat i) 0 dest src mem (src + i)) /\
  (dest <> 0 -> src <> 0 -> dest <= src \/ src + count <= dest ->
   forall i, 0 <= i < count ->
     snd (memcpy dest src count mem) (dest + i) = mem (src + i)).
Proof.
  intros Hc. unfold CopyMemory, memcpy. split; [reflexivity|].
  split.
  { intros [-> | [-> | ->]]; cbn; rewrite ?orb_true_r; reflexivity. }
  split; [destruct (_ || _); reflexivity|].
  split.
  { intros a Ha. destruct (_ || _); [reflexivity|]. cbn [snd].
    apply copy_loop_frame. lia. }
  assert (Hguard : dest <> 0 -> src <> 0 -> forall i, 0 <= i < count ->
            (dest =? 0) || (src =? 0) || (count =? 0) = false).
  { intros Hd Hs i Hi.
    destruct (Z.eqb_spec dest 0), (Z.eqb_spec src 0), (Z.eqb_spec count 0);
      try reflexivity; lia. }
  split; intros Hd Hs.
  - intros i Hi. rewrite (Hguard Hd Hs i Hi). cbn [snd].
    pose proof (copy_loop_written (Z.to_nat count) dest src mem (Z.to_nat i)) as W.
    rewrite (Z2Nat.id i) in W by lia. apply W. lia.
  - intros Hsep i Hi. rewrite (Hguard Hd Hs i Hi). cbn [snd].
    pose proof (copy_loop_forward (Z.to_nat count) dest src mem (Z.to_nat i)) as W.
    rewrite !(Z2Nat.id i), (Z2Nat.id count) in W by lia. apply W; lia.
Qed.

Lemma memcpy_copies_witness :
  let mem : memory := <[100 := Byte.x01]> (<[101 := Byte.x02]> (fun _ => Byte.x00)) in
  snd (memcpy 200 100 2 mem) (200 + 1) = Byte.x02.
Proof.
  cbv zeta.
  destruct (memcpy_copies 200 100 2
              (<[100 := Byte.x01]> (<[101 := Byte.x02]> (fun _ => Byte.x00))))
    as (_ & _ & _ & _ & _ & Hfwd); [lia|].
  rewrite Hfwd; [reflexivity|lia|lia|lia|lia].
Defined.
End Memcpy.

(** ** DOUBLE to integer *)

Section DOUBLE_to_integer.
Import DOUBLE.

Lemma denominator_pos d : 0 < denominator d.
Proof. unfold denominator. apply Z.pow_pos_nonneg; lia. Qed.

Lemma quot_truncates n m :
  0 < m ->
  Z.abs (Z.quot n m) * m <= Z.abs n < (Z.abs (Z.quot n m) + 1) * m /\
  0 <= Z.quot n m * n.
Proof.
  intros Hm. pose proof (Z.quot_abs n m ltac:(lia)) as E.
  rewrite (Z.abs_eq m), Z.quot_div_nonneg in E by lia.
  pose proof (Z.mul_div_le (Z.abs n) m Hm).
  pose proof (Z.mul_succ_div_gt (Z.abs n) m Hm).
  split; [rewrite <- E; lia|].
  rewrite (Z.quot_div n m) by lia.
  assert (0 <= Z.abs n / Z.abs m) by (apply Z.div_pos; lia).
  nia.
Qed.

(** C8.  Converting a finite [DOUBLE] to an integer discards the
    fractional part: the result [r] is the integer of largest magnitude
    with [|r| <= |x|], and it has the sign of [x] or is zero.  In
    particular 1.9 converts to 1, 100.5 to 100, 0.5 to 0 and -1.0 to
    -1. *)
Theorem DOUBLE_to_integer_truncates (d : t) :
  is_finite d ->
  0 < denominator d /\
  Z.abs (to_integer d) * denominator d <= Z.abs (numerator d)
    < (Z.abs (to_integer d) + 1) * denominator d /\
  0 <= to_integer d * numerator d /\
  to_integer (of_words 1073636966 1717986918) = 1 /\
  to_integer (of_words 1079582720 0) = 100 /\
  to_integer (of_words 1071644672 0) = 0 /\
  to_integer (of_words 3220176896 0) = -1.
Proof.
  intros _. split; [apply denominator_pos|].
  destruct (quot_truncates (numerator d) (denominator d) (denominator_pos d)) as [Hb Hs].
  split; [exact Hb|]. split; [exact Hs|]. repeat split.
Qed.

Lemma DOUBLE_to_integer_truncates_witness :
  4 * denominator (of_words 1074855936 0) <= Z.abs (numerator (of_words 1074855936 0))
    < 5 * denominator (of_words 1074855936 0).
Proof.
  destruct (DOUBLE_to_integer_truncates (of_words 1074855936 0)) as (_ & Hb & _).
  - vm_compute. discriminate.
  - exact Hb.
Defined.
End DOUBLE_to_integer.


(** Case analysis on the integer comparisons of the goal. *)
Ltac zbool_step :=
  match goal with
  | |- context [Z.eqb ?a ?b] => destruct (Z.eqb_spec a b)
  | |- context [Z.ltb ?a ?b] => destruct (Z.ltb_spec a b)
  | |- context [Z.leb ?a ?b] => destruct (Z.leb_spec a b)
  end.

Ltac zbool :=
  rewrite ?Z.gtb_ltb, ?Z.geb_leb;
  repeat (zbool_step; cbn [negb andb orb]; try (exfalso; lia));
  repeat split; try reflexivity; try lia.

(** ** UINT64: the remaining operators *)

Section UINT64_more.
Import UINT64.

Lemma UINT64_order x y :
  wf x -> wf y ->
  op_eq x y = (to_ull x =? to_ull y) /\
  op_ne x y = negb (to_ull x =? to_ull y) /\
  op_lt x y = (to_ull x <? to_ull y) /\
  op_le x y = (to_ull x <=? to_ull y) /\
  op_gt x y = (to_ull y <? to_ull x) /\
  op_ge x y = (to_ull y <=? to_ull x).
Proof.
  intros Hx Hy. rewrite !to_ull_eq by assumption.
  destruct x as [hx lx], y as [hy ly], Hx, Hy; cbn in *.
  unfold op_eq, op_ne, op_lt, op_le, op_gt, op_ge, op_eq; cbn. word_unfold.
  zbool.
Qed.

Lemma UINT64_bitwise x y :
  wf x -> wf y ->
  to_ull (op_and x y) = Z.land (to_ull x) (to_ull y) /\
  to_ull (op_or x y) = Z.lor (to_ull x) (to_ull y) /\
  to_ull (op_xor x y) = Z.lxor (to_ull x) (to_ull y) /\
  to_ull (op_not x) = Z.lnot (to_ull x) mod 2 ^ 64.
Proof.
  intros [Hhx Hlx] [Hhy Hly]. destruct x as [hx lx], y as [hy ly]; cbn [high low] in *.
  unfold op_and, op_or, op_xor, op_not, Make, to_ull; cbn.
  rewrite <- (u32_small hx Hhx), <- (u32_small lx Hlx), <- (u32_small hy Hhy),
    <- (u32_small ly Hly). clear. unfold u32.
  split; [bits|]. split; [bits|]. split; [bits|]. bits.
Qed.

Lemma UINT64_not_value x : wf x -> to_ull (op_not x) = 2 ^ 64 - 1 - to_ull x.
Proof.
  intros Hx. destruct (UINT64_bitwise x x Hx Hx) as (_ & _ & _ & ->).
  pose proof (to_ull_range x Hx). rewrite Z.lnot_eq_pred_opp. pow2_consts. zdm.
Qed.

Lemma op_preinc_wf x : wf x -> wf (op_preinc x).
Proof.
  intros [Hh Hl]. unfold op_preinc; cbn.
  destruct (u32 (low x + 1) =? 0); apply wf_mk; try apply u32_range; assumption.
Qed.

Lemma op_predec_wf x : wf x -> wf (op_predec x).
Proof.
  intros [Hh Hl]. unfold op_predec; cbn.
  destruct (low x =? 0); apply wf_mk; try apply u32_range; assumption.
Qed.

Lemma to_ull_preinc x : wf x -> to_ull (op_preinc x) = (to_ull x + 1) mod 2 ^ 64.
Proof.
  intros Hx. rewrite (to_ull_eq _ (op_preinc_wf x Hx)), (to_ull_eq x Hx).
  destruct x as [h l], Hx as [Hh Hl]; cbn in *. unfold op_preinc; cbn.
  fold (u32 (l + 1)). destruct (Z.eqb_spec (u32 (l + 1)) 0) as [E|E]; cbn;
    revert E; word_unfold; intros; zdm.
Qed.

Lemma to_ull_predec x : wf x -> to_ull (op_predec x) = (to_ull x - 1) mod 2 ^ 64.
Proof.
  intros Hx. rewrite (to_ull_eq _ (op_predec_wf x Hx)), (to_ull_eq x Hx).
  destruct x as [h l], Hx as [Hh Hl]; cbn in *. unfold op_predec; cbn.
  destruct (Z.eqb_spec l 0) as [E|E]; cbn; word_unfold; zdm.
Qed.

Lemma shr_wf x s : wf x -> wf (shr x s).
Proof.
  intros Hx. unfold shr.
  destruct ((s <? 0) || (s >=? 64)); [apply wf_make|].
  destruct (s =? 0); [exact Hx|]. destruct (s >=? 32); apply wf_make.
Qed.

Lemma shl_value x s :
  wf x -> 0 <= s ->
  to_ull (shl x s) = (to_ull x * 2 ^ s) mod 2 ^ 64.
Proof.
  intros Hx Hs. destruct (Z.lt_ge_cases s 64).
  - rewrite to_ull_shl, Z.shiftl_mul_pow2 by (assumption || lia). reflexivity.
  - unfold shl. rewrite Z.geb_leb.
    destruct (Z.ltb_spec s 0); [lia|]. destruct (Z.leb_spec 64 s); [|lia]. cbn.
    replace s with (64 + (s - 64)) by lia. rewrite Z.pow_add_r by lia.
    rewrite (Z.mul_comm (2 ^ 64)), Z.mul_assoc, Z.mod_mul by lia. reflexivity.
Qed.

Lemma shr_value x s :
  wf x -> 0 <= s -> to_ull (shr x s) = to_ull x / 2 ^ s.
Proof.
  intros Hx Hs. destruct (Z.lt_ge_cases s 64).
  - rewrite to_ull_shr, Z.shiftr_div_pow2 by (assumption || lia). reflexivity.
  - unfold shr. rewrite Z.geb_leb.
    destruct (Z.ltb_spec s 0); [lia|]. destruct (Z.leb_spec 64 s); [|lia]. cbn.
    symmetry. apply Z.div_small. pose proof (to_ull_range x Hx).
    assert (2 ^ 64 <= 2 ^ s) by (apply Z.pow_le_mono_r; lia). lia.
Qed.

Lemma to_ull_of_u32 val : wf (of_u32 val) /\ to_ull (of_u32 val) = u32 val.
Proof.
  assert (Hw : wf (of_u32 val)) by (apply wf_mk; [word_unfold; lia|apply u32_range]).
  split; [exact Hw|]. rewrite to_ull_eq by exact Hw. cbn. lia.
Qed.

Lemma to_ull_add_u32 x val :
  wf x -> to_ull (add_u32 x val) = (to_ull x + u32 val) mod 2 ^ 64.
Proof.
  intros Hx. rewrite (to_ull_eq (add_u32 x val)) by apply wf_make.
  rewrite to_ull_eq by assumption. pose proof (u32_range val) as Hv.
  destruct x as [h l], Hx as [Hh Hl]; cbn in *. unfold add_u32, make; cbn.
  generalize dependent (u32 val). intros v Hv. word_unfold.
  destruct (Z.ltb_spec ((l + v) mod 4294967296) l); zdm.
Qed.

Lemma to_ull_sub_u32 x val :
  wf x -> to_ull (sub_u32 x val) = (to_ull x - u32 val) mod 2 ^ 64.
Proof.
  intros Hx. rewrite (to_ull_eq (sub_u32 x val)) by apply wf_make.
  rewrite to_ull_eq by assumption. pose proof (u32_range val) as Hv.
  destruct x as [h l], Hx as [Hh Hl]; cbn in *. unfold sub_u32, make; cbn.
  generalize dependent (u32 val). intros v Hv. word_unfold.
  destruct (Z.ltb_spec l v); zdm.
Qed.

Lemma lor_half_wrapped x y :
  Z.lor (x mod 2 ^ 16) (u32 (y * 2 ^ 16))
  = x mod 2 ^ 16 + (y mod 2 ^ 16) * 2 ^ 16.
Proof.
  replace (u32 (y * 2 ^ 16)) with ((y mod 2 ^ 16) * 2 ^ 16) by (word_unfold; zdm).
  apply lor_low_high; [lia|]. apply Z.mod_pos_bound. lia.
Qed.

Lemma to_ull_mul_u32 x val :
  wf x -> to_ull (mul_u32 x val) = (to_ull x * u32 val) mod 2 ^ 64.
Proof.
  intros Hx. rewrite (to_ull_eq (mul_u32 x val)) by apply wf_make.
  rewrite (to_ull_eq x) by assumption. pose proof (u32_range val) as Hv.
  destruct x as [hx lx], Hx as [Hhx Hlx]. cbn [high low] in *.
  unfold mul_u32. cbn [high low make]. generalize dependent (u32 val). intros v Hv.
  rewrite !land_65535, !Z.shiftr_div_pow2, !Z.shiftl_mul_pow2, !lor_half_wrapped by lia.
  destruct (limbs16 lx Hlx) as (Ha0 & Ha1 & Elx).
  destruct (limbs16 v Hv) as (Hb0 & Hb1 & Ev).
  set (a0 := lx mod 2 ^ 16) in *. set (a1 := lx / 2 ^ 16) in *.
  set (b0 := v mod 2 ^ 16) in *. set (b1 := v / 2 ^ 16) in *.
  clearbody a0 a1 b0 b1. subst lx v. clear Hlx Hv.
  destruct (u32_prod a0 b0 Ha0 Hb0) as [-> B00].
  destruct (u32_prod a1 b0 Ha1 Hb0) as [-> B10].
  destruct (u32_prod a0 b1 Ha0 Hb1) as [-> B01].
  destruct (u32_prod a1 b1 Ha1 Hb1) as [-> B11].
  replace ((hx * 2 ^ 32 + (a0 + 2 ^ 16 * a1)) * (b0 + 2 ^ 16 * b1))
    with ((hx * (b0 + 2 ^ 16 * b1)) * 2 ^ 32
          + (a0 * b0 + (a1 * b0 + a0 * b1) * 2 ^ 16 + (a1 * b1) * 2 ^ 32))
    by ring.
  revert B00 B10 B01 B11.
  generalize (a0 * b0) (a1 * b0) (a0 * b1) (a1 * b1) (hx * (b0 + 2 ^ 16 * b1)).
  clear. intros. unfold u32.
  change (2 ^ 16) with 65536; change (2 ^ 32) with 4294967296;
  change (2 ^ 64) with 18446744073709551616.
  zdm.
Qed.

Lemma UINT64_order_u32 x val :
  wf x ->
  lt_u32 x val = (to_ull x <? u32 val) /\
  le_u32 x val = (to_ull x <=? u32 val) /\
  gt_u32 x val = (u32 val <? to_ull x) /\
  ge_u32 x val = (u32 val <=? to_ull x) /\
  eq_u32 x val = (to_ull x =? u32 val) /\
  ne_u32 x val = negb (to_ull x =? u32 val).
Proof.
  intros Hx. rewrite !to_ull_eq by assumption. pose proof (u32_range val) as Hv.
  destruct x as [h l], Hx as [Hh Hl]; cbn in *.
  unfold lt_u32, le_u32, gt_u32, ge_u32, eq_u32, ne_u32; cbn.
  generalize dependent (u32 val). intros v Hv. word_unfold. zbool.
Qed.

Lemma UINT64_eq_int x val :
  wf x ->
  eq_int x val = (to_ull x =? u32 val) /\
  ne_int x val = negb (to_ull x =? u32 val).
Proof.
  intros Hx. rewrite !to_ull_eq by assumption.
  assert (E : u32 (s32 val mod 2 ^ 64) = u32 val).
  { rewrite <- (u32_s32 val). generalize (s32 val). intros. word_unfold. zdm. }
  unfold eq_int, ne_int. rewrite E. pose proof (u32_range val) as Hv.
  destruct x as [h l], Hx as [Hh Hl]; cbn in *.
  generalize dependent (u32 val). intros v _ Hv. word_unfold. zbool.
Qed.

Lemma UINT64_add_sub_cancel a b :
  wf a -> wf b -> sub (add a b) b = a /\ add (sub a b) b = a.
Proof.
  intros Ha Hb. pose proof (to_ull_range a Ha). pose proof (to_ull_range b Hb).
  split; apply to_ull_inj; try apply wf_make; try assumption.
  - rewrite to_ull_sub, to_ull_add by (assumption || apply add_wf).
    pow2_consts. zdm.
  - rewrite to_ull_add, to_ull_sub by (assumption || apply sub_wf).
    pow2_consts. zdm.
Qed.

Lemma UINT64_div_rem_identity a b :
  wf a -> wf b -> to_ull b <> 0 ->
  add (mul (div a b) b) (rem a b) = a /\ op_lt (rem a b) b = true.
Proof.
  intros Ha Hb Hnz. pose proof (to_ull_range a Ha). pose proof (to_ull_range b Hb).
  destruct (to_ull_div_rem a b Ha Hb Hnz) as (Hwq & Hwr & Eq & Er).
  split.
  - apply to_ull_inj; [apply add_wf|assumption|].
    rewrite to_ull_add, to_ull_mul, Eq, Er by (assumption || apply mul_wf).
    rewrite Z.add_mod_idemp_l by lia.
    rewrite (Z.mul_comm _ (to_ull b)), <- Z.div_mod by assumption.
    apply Z.mod_small. assumption.
  - destruct (UINT64_order (rem a b) b Hwr Hb) as (_ & _ & -> & _).
    rewrite Er. apply Z.ltb_lt. apply Z.mod_pos_bound. lia.
Qed.

Lemma UINT64_mul_div_cancel a b :
  wf a -> wf b -> to_ull b <> 0 -> to_ull a * to_ull b < 2 ^ 64 ->
  div (mul a b) b = a.
Proof.
  intros Ha Hb Hnz Hfit. pose proof (to_ull_range a Ha). pose proof (to_ull_range b Hb).
  destruct (to_ull_div_rem (mul a b) b (mul_wf a b) Hb Hnz) as (Hwq & _ & Eq & _).
  apply to_ull_inj; try assumption.
  rewrite Eq, to_ull_mul, Z.mod_small by (assumption || nia).
  apply Z.div_mul. assumption.
Qed.

Lemma UINT64_assign_same x other s :
  add_assign x other = add x other /\
  sub_assign x other = sub x other /\
  shl_assign x s = shl x s /\
  shr_assign x s = shr x s.
Proof.
  split; [unfold add_assign, add, make; now rewrite !u32_idem|].
  split; [unfold sub_assign, sub, make; now rewrite !u32_idem|].
  split.
  - unfold shl_assign, shl. destruct ((s <? 0) || (s >=? 64)); [reflexivity|].
    destruct (s =? 0); [reflexivity|]. destruct (s >=? 32); reflexivity.
  - unfold shr_assign, shr. destruct ((s <? 0) || (s >=? 64)); [reflexivity|].
    destruct (s =? 0); [reflexivity|]. destruct (s >=? 32); reflexivity.
Qed.

Lemma to_ull_div_rem_u32 x val :
  wf x ->
  to_ull (div_u32 x val) = (if u32 val =? 0 then 0 else to_ull x / u32 val) /\
  to_ull (rem_u32 x val) = (if u32 val =? 0 then 0 else to_ull x mod u32 val).
Proof.
  intros Hx. destruct (to_ull_of_u32 val) as [Hw Ev].
  unfold div_u32, rem_u32. destruct (Z.eqb_spec (u32 val) 0) as [E|E].
  - split; [reflexivity|]. unfold rem, of_u32. rewrite E. reflexivity.
  - destruct (to_ull_div_rem x (of_u32 val) Hx Hw) as (_ & _ & Eq & Er); [now rewrite Ev|].
    now rewrite Eq, Er, Ev.
Qed.

Lemma to_ull_of_ull_mod v : to_ull (of_ull v) = v mod 2 ^ 64.
Proof.
  rewrite to_ull_eq by apply wf_of_ull. unfold of_ull; cbn.
  rewrite !land_ffffffff, Z.shiftr_div_pow2 by lia. word_unfold. zdm.
Qed.

(** X1.  [operator+] and [operator-] of [UINT64] are addition and
    subtraction modulo 2^64. *)
Theorem UINT64_add_sub_native (a b : t) :
  wf a -> wf b ->
  wf (add a b) /\ wf (sub a b) /\
  to_ull (add a b) = (to_ull a + to_ull b) mod 2 ^ 64 /\
  to_ull (sub a b) = (to_ull a - to_ull b) mod 2 ^ 64.
Proof.
  intros Ha Hb. split; [apply add_wf|]. split; [apply sub_wf|].
  split; [now apply to_ull_add|now apply to_ull_sub].
Qed.

Lemma UINT64_add_sub_native_witness :
  to_ull (add (mk 0 4294967295) (mk 0 1)) = 4294967296 /\
  to_ull (sub (mk 0 0) (mk 0 1)) = 18446744073709551615.
Proof.
  destruct (UINT64_add_sub_native (mk 0 4294967295) (mk 0 1)) as (_ & _ & Ea & _);
    [split; cbn; unfold is_u32; lia ..|].
  destruct (UINT64_add_sub_native (mk 0 0) (mk 0 1)) as (_ & _ & _ & Es);
    [split; cbn; unfold is_u32; lia ..|].
  rewrite Ea, Es. split; reflexivity.
Defined.

(** X2.  Adding and subtracting the same [UINT64] cancel, whether or not
    the intermediate result wraps: [(a + b) - b == a] and
    [(a - b) + b == a]. *)
Theorem UINT64_add_sub_inverse (a b : t) :
  wf a -> wf b -> sub (add a b) b = a /\ add (sub a b) b = a.
Proof. exact (UINT64_add_sub_cancel a b). Qed.

Lemma UINT64_add_sub_inverse_witness :
  sub (add (mk 4294967295 4294967295) (mk 0 7)) (mk 0 7) = mk 4294967295 4294967295.
Proof.
  apply (UINT64_add_sub_inverse (mk 4294967295 4294967295) (mk 0 7));
    split; cbn; unfold is_u32; lia.
Defined.

(** X3.  The six comparison operators the macro generates for [UINT64]
    are the comparisons of the unsigned 64-bit values. *)
Theorem UINT64_comparisons_native (x y : t) :
  wf x -> wf y ->
  op_eq x y = (to_ull x =? to_ull y) /\
  op_ne x y = negb (to_ull x =? to_ull y) /\
  op_lt x y = (to_ull x <? to_ull y) /\
  op_le x y = (to_ull x <=? to_ull y) /\
  op_gt x y = (to_ull y <? to_ull x) /\
  op_ge x y = (to_ull y <=? to_ull x).
Proof. exact (UINT64_order x y). Qed.

Lemma UINT64_comparisons_native_witness :
  op_lt (mk 1 0) (mk 0 4294967295) = false /\ op_gt (mk 1 0) (mk 0 4294967295) = true.
Proof.
  destruct (UINT64_comparisons_native (mk 1 0) (mk 0 4294967295))
    as (_ & _ & El & _ & Eg & _); [split; cbn; unfold is_u32; lia ..|].
  rewrite El, Eg. split; reflexivity.
Defined.

(** X4.  [&], [|], [^] and [~] of [UINT64] act on the 64-bit value as the
    bitwise operations do; [~a] is [2^64 - 1 - a]. *)
Theorem UINT64_bitwise_native (x y : t) :
  wf x -> wf y ->
  to_ull (op_and x y) = Z.land (to_ull x) (to_ull y) /\
  to_ull (op_or x y) = Z.lor (to_ull x) (to_ull y) /\
  to_ull (op_xor x y) = Z.lxor (to_ull x) (to_ull y) /\
  to_ull (op_not x) = 2 ^ 64 - 1 - to_ull x.
Proof.
  intros Hx Hy. destruct (UINT64_bitwise x y Hx Hy) as (Ea & Eo & Ex & _).
  split; [exact Ea|]. split; [exact Eo|]. split; [exact Ex|].
  now apply UINT64_not_value.
Qed.

Lemma UINT64_bitwise_native_witness :
  to_ull (op_xor (mk 1 5) (mk 1 3)) = 6 /\ to_ull (op_not (mk 0 0)) = 18446744073709551615.
Proof.
  destruct (UINT64_bitwise_native (mk 1 5) (mk 1 3)) as (_ & _ & Ex & _);
    [split; cbn; unfold is_u32; lia ..|].
  destruct (UINT64_bitwise_native (mk 0 0) (mk 0 0)) as (_ & _ & _ & En);
    [split; cbn; unfold is_u32; lia ..|].
  rewrite Ex, En. split; reflexivity.
Defined.

(** X5.  [++] and [--] of [UINT64] add and subtract one modulo 2^64 (the
    carry into the high word happens exactly when the low word wraps),
    and each undoes the other. *)
Theorem UINT64_increment_decrement (x : t) :
  wf x ->
  to_ull (op_preinc x) = (to_ull x + 1) mod 2 ^ 64 /\
  to_ull (op_predec x) = (to_ull x - 1) mod 2 ^ 64 /\
  op_predec (op_preinc x) = x /\ op_preinc (op_predec x) = x.
Proof.
  intros Hx. pose proof (to_ull_range x Hx).
  split; [now apply to_ull_preinc|]. split; [now apply to_ull_predec|].
  split; apply to_ull_inj; try assumption.
  - apply op_predec_wf. now apply op_preinc_wf.
  - rewrite to_ull_predec, to_ull_preinc by (try apply op_preinc_wf; assumption).
    pow2_consts. zdm.
  - apply op_preinc_wf. now apply op_predec_wf.
  - rewrite to_ull_preinc, to_ull_predec by (try apply op_predec_wf; assumption).
    pow2_consts. zdm.
Qed.

Lemma UINT64_increment_decrement_witness :
  to_ull (op_preinc (mk 0 4294967295)) = 4294967296 /\
  to_ull (op_predec (mk 0 0)) = 18446744073709551615.
Proof.
  destruct (UINT64_increment_decrement (mk 0 4294967295)) as (Ei & _);
    [split; cbn; unfold is_u32; lia|].
  destruct (UINT64_increment_decrement (mk 0 0)) as (_ & Ed & _);
    [split; cbn; unfold is_u32; lia|].
  rewrite Ei, Ed. split; reflexivity.
Defined.

(** X6.  For every shift amount [s >= 0], [a << s] of [UINT64] is
    [a * 2^s] modulo 2^64 and [a >> s] is the quotient of [a] by [2^s];
    amounts of 64 and more give 0. *)
Theorem UINT64_shift_values (x : t) (s : Z) :
  wf x -> 0 <= s ->
  wf (shl x s) /\ wf (shr x s) /\
  to_ull (shl x s) = (to_ull x * 2 ^ s) mod 2 ^ 64 /\
  to_ull (shr x s) = to_ull x / 2 ^ s /\
  (64 <= s -> shl x s = mk 0 0 /\ shr x s = mk 0 0).
Proof.
  intros Hx Hs. split; [now apply shl_wf|]. split; [now apply shr_wf|].
  split; [now apply shl_value|]. split; [now apply shr_value|].
  intros H64. unfold shl, shr. rewrite Z.geb_leb.
  destruct (Z.leb_spec 64 s); [|lia]. rewrite orb_true_r. split; reflexivity.
Qed.

Lemma UINT64_shift_values_witness :
  to_ull (shl (mk 0 3) 33) = 25769803776 /\ to_ull (shr (mk 6 0) 33) = 3.
Proof.
  destruct (UINT64_shift_values (mk 0 3) 33) as (_ & _ & El & _);
    [split; cbn; unfold is_u32; lia|lia|].
  destruct (UINT64_shift_values (mk 6 0) 33) as (_ & _ & _ & Er & _);
    [split; cbn; unfold is_u32; lia|lia|].
  rewrite El, Er. split; reflexivity.
Defined.

(** X7.  [operator*(UINT32)] of [UINT64] is the product with the 32-bit
    operand modulo 2^64. *)
Theorem UINT64_mul_u32_native (x : t) (val : Z) :
  wf x -> is_u32 val ->
  wf (mul_u32 x val) /\ to_ull (mul_u32 x val) = (to_ull x * val) mod 2 ^ 64.
Proof.
  intros Hx Hv. split; [apply wf_make|].
  rewrite to_ull_mul_u32, (u32_small val) by assumption. reflexivity.
Qed.

Lemma UINT64_mul_u32_native_witness :
  to_ull (mul_u32 (mk 1 4294967295) 4294967295) = 18446744060824649729.
Proof.
  destruct (UINT64_mul_u32_native (mk 1 4294967295) 4294967295) as (_ & E);
    [split; cbn; unfold is_u32; lia|unfold is_u32; lia|].
  rewrite E. reflexivity.
Defined.

(** X8.  [operator+(UINT32)] and [operator-(UINT32)] of [UINT64] add and
    subtract the 32-bit operand modulo 2^64. *)
Theorem UINT64_add_sub_u32_native (x : t) (val : Z) :
  wf x -> is_u32 val ->
  to_ull (add_u32 x val) = (to_ull x + val) mod 2 ^ 64 /\
  to_ull (sub_u32 x val) = (to_ull x - val) mod 2 ^ 64.
Proof.
  intros Hx Hv. rewrite to_ull_add_u32, to_ull_sub_u32, (u32_small val) by assumption.
  split; reflexivity.
Qed.

Lemma UINT64_add_sub_u32_native_witness :
  to_ull (add_u32 (mk 0 4294967295) 2) = 4294967297 /\
  to_ull (sub_u32 (mk 1 0) 1) = 4294967295.
Proof.
  destruct (UINT64_add_sub_u32_native (mk 0 4294967295) 2) as (Ea & _);
    [split; cbn; unfold is_u32; lia|unfold is_u32; lia|].
  destruct (UINT64_add_sub_u32_native (mk 1 0) 1) as (_ & Es);
    [split; cbn; unfold is_u32; lia|unfold is_u32; lia|].
  rewrite Ea, Es. split; reflexivity.
Defined.

(** X9.  The comparisons of a [UINT64] with a [UINT32] are the
    comparisons of the 64-bit value with the 32-bit one. *)
Theorem UINT64_comparisons_u32_native (x : t) (val : Z) :
  wf x -> is_u32 val ->
  lt_u32 x val = (to_ull x <? val) /\
  le_u32 x val = (to_ull x <=? val) /\
  gt_u32 x val = (val <? to_ull x) /\
  ge_u32 x val = (val <=? to_ull x) /\
  eq_u32 x val = (to_ull x =? val) /\
  ne_u32 x val = negb (to_ull x =? val).
Proof.
  intros Hx Hv. pose proof (UINT64_order_u32 x val Hx) as H.
  rewrite (u32_small val Hv) in H. exact H.
Qed.

Lemma UINT64_comparisons_u32_native_witness :
  gt_u32 (mk 1 0) 4294967295 = true /\ le_u32 (mk 0 7) 7 = true.
Proof.
  destruct (UINT64_comparisons_u32_native (mk 1 0) 4294967295) as (_ & _ & Eg & _);
    [split; cbn; unfold is_u32; lia|unfold is_u32; lia|].
  destruct (UINT64_comparisons_u32_native (mk 0 7) 7) as (_ & El & _);
    [split; cbn; unfold is_u32; lia|unfold is_u32; lia|].
  rewrite Eg, El. split; reflexivity.
Defined.

(** X10.  [operator==(int)] and [operator!=(int)] of [UINT64] compare with
    the low 32 bits of the operand: for [val >= 0] this is equality with
    [val], and for a negative [val] the object is equal to it exactly when
    its value is [val + 2^32] (not the sign-extended [val + 2^64]). *)
Theorem UINT64_eq_int_low_word (x : t) (val : Z) :
  wf x -> is_s32 val ->
  eq_int x val = (to_ull x =? val mod 2 ^ 32) /\
  ne_int x val = negb (eq_int x val) /\
  (0 <= val -> eq_int x val = (to_ull x =? val)) /\
  (val < 0 -> eq_int x val = (to_ull x =? val + 2 ^ 32)).
Proof.
  intros Hx Hv. destruct (UINT64_eq_int x val Hx) as [Ee En].
  split; [exact Ee|]. split; [now rewrite En, Ee|].
  rewrite Ee. unfold u32. split; intros Hs; f_equal; word_unfold; zdm.
Qed.

Lemma UINT64_eq_int_low_word_witness :
  eq_int (mk 0 4294967295) (-1) = true /\ eq_int (mk 4294967295 4294967295) (-1) = false.
Proof.
  destruct (UINT64_eq_int_low_word (mk 0 4294967295) (-1)) as (_ & _ & _ & E1);
    [split; cbn; unfold is_u32; lia|unfold is_s32; lia|].
  destruct (UINT64_eq_int_low_word (mk 4294967295 4294967295) (-1)) as (_ & _ & _ & E2);
    [split; cbn; unfold is_u32; lia|unfold is_s32; lia|].
  rewrite E1, E2 by lia. split; reflexivity.
Defined.

(** X11.  For a divisor [b <> 0], quotient and remainder of [UINT64]
    recompose the dividend, [(a / b) * b + (a % b) == a], and the remainder
    is smaller than the divisor. *)
Theorem UINT64_div_rem_recompose (a b : t) :
  wf a -> wf b -> to_ull b <> 0 ->
  add (mul (div a b) b) (rem a b) = a /\ op_lt (rem a b) b = true.
Proof. exact (UINT64_div_rem_identity a b). Qed.

Lemma UINT64_div_rem_recompose_witness :
  add (mul (div (mk 5 9) (mk 0 7)) (mk 0 7)) (rem (mk 5 9) (mk 0 7)) = mk 5 9.
Proof.
  apply (UINT64_div_rem_recompose (mk 5 9) (mk 0 7));
    [split; cbn; unfold is_u32; lia ..|vm_compute; discriminate].
Defined.

(** X12.  When the product does not overflow 64 bits, dividing it by a
    non-zero factor gives back the other factor: [(a * b) / b == a]. *)
Theorem UINT64_mul_div_inverse (a b : t) :
  wf a -> wf b -> to_ull b <> 0 -> to_ull a * to_ull b < 2 ^ 64 ->
  div (mul a b) b = a.
Proof. exact (UINT64_mul_div_cancel a b). Qed.

Lemma UINT64_mul_div_inverse_witness :
  div (mul (mk 0 4294967295) (mk 0 4294967295)) (mk 0 4294967295) = mk 0 4294967295.
Proof.
  apply (UINT64_mul_div_inverse (mk 0 4294967295) (mk 0 4294967295));
    [split; cbn; unfold is_u32; lia ..|vm_compute; discriminate|vm_compute; reflexivity].
Defined.

(** X13.  [operator/] and [operator%] of [UINT64] with a [UINT32] divisor
    are the quotient and the remainder by that divisor, and 0 when the
    divisor is 0. *)
Theorem UINT64_div_rem_u32_native (x : t) (val : Z) :
  wf x -> is_u32 val ->
  to_ull (div_u32 x val) = (if val =? 0 then 0 else to_ull x / val) /\
  to_ull (rem_u32 x val) = (if val =? 0 then 0 else to_ull x mod val).
Proof.
  intros Hx Hv. pose proof (to_ull_div_rem_u32 x val Hx) as H.
  rewrite (u32_small val Hv) in H. exact H.
Qed.

Lemma UINT64_div_rem_u32_native_witness :
  to_ull (div_u32 (mk 2 0) 10) = 858993459 /\ to_ull (rem_u32 (mk 2 0) 10) = 2.
Proof.
  destruct (UINT64_div_rem_u32_native (mk 2 0) 10) as (Eq & Er);
    [split; cbn; unfold is_u32; lia|unfold is_u32; lia|].
  rewrite Eq, Er. split; reflexivity.
Defined.

(** X14.  The constructor from [unsigned long long] and the conversion
    back are inverse: converting an object and rebuilding it gives the
    same object, and building from an integer keeps it modulo 2^64. *)
Theorem UINT64_ull_round_trip (x : t) (v : Z) :
  wf x ->
  of_ull (to_ull x) = x /\ wf (of_ull v) /\ to_ull (of_ull v) = v mod 2 ^ 64.
Proof.
  intros Hx. split; [now apply of_ull_to_ull|]. split; [apply wf_of_ull|].
  apply to_ull_of_ull_mod.
Qed.

Lemma UINT64_ull_round_trip_witness :
  of_ull (to_ull (mk 7 9)) = mk 7 9.
Proof.
  destruct (UINT64_ull_round_trip (mk 7 9) 0) as (E & _);
    [split; cbn; unfold is_u32; lia|exact E].
Defined.

(** X30.  The bitwise operators of [UINT64] with a 32-bit operand act on
    the 64-bit value: a [UINT32] operand is zero-extended, and the [int]
    operand of [operator&(int)] is sign-extended to 64 bits, so
    [a & -1] is [a]. *)
Theorem UINT64_bitwise_mixed (x : t) (val : Z) :
  wf x ->
  (is_u32 val ->
   to_ull (and_u32 x val) = Z.land (to_ull x) val /\
   to_ull (or_u32 x val) = Z.lor (to_ull x) val /\
   to_ull (xor_u32 x val) = Z.lxor (to_ull x) val) /\
  (is_s32 val -> to_ull (and_int x val) = Z.land (to_ull x) val).
Proof.
  intros Hx. split; intros Hv.
  - destruct (to_ull_of_u32 val) as [Hw Ev]. rewrite (u32_small val Hv) in Ev.
    destruct (UINT64_bitwise x (of_u32 val) Hx Hw) as (Ea & Eo & Ex & _).
    unfold and_u32, or_u32, xor_u32. rewrite Ea, Eo, Ex, Ev. repeat split.
  - unfold and_int.
    destruct (UINT64_bitwise x (of_ull (s32 val mod 2 ^ 64)) Hx (wf_of_ull _)) as (Ea & _).
    rewrite Ea, to_ull_of_ull_mod, Z.mod_mod, (s32_small val Hv) by lia.
    pose proof (to_ull_range x Hx) as HX.
    rewrite <- (Z.mod_small (to_ull x) (2 ^ 64)) by lia.
    generalize (to_ull x). intros X. bits.
Qed.

Lemma UINT64_bitwise_mixed_witness :
  to_ull (and_u32 (mk 7 13) 6) = 4 /\ to_ull (and_int (mk 7 13) (-1)) = 30064771085.
Proof.
  destruct (UINT64_bitwise_mixed (mk 7 13) 6) as (Hu & _);
    [split; cbn; unfold is_u32; lia|].
  destruct Hu as (Ea & _); [unfold is_u32; lia|].
  destruct (UINT64_bitwise_mixed (mk 7 13) (-1)) as (_ & Hi);
    [split; cbn; unfold is_u32; lia|].
  rewrite Ea, Hi by (unfold is_s32; lia). split; reflexivity.
Defined.

End UINT64_more.


(** ** INT64: the remaining operators *)

Section INT64_more.
Import INT64.

Lemma sign_bits X j : is_s64 X -> 63 <= j -> Z.testbit X j = (X <? 0).
Proof.
  intros HX Hj. s64_unfold. destruct (Z.ltb_spec X 0).
  - apply Z.bits_above_log2_neg; [lia|].
    assert (Z.log2 (Z.pred (- X)) < 63); [|lia].
    destruct (Z.eq_dec (Z.pred (- X)) 0) as [E|E]; [rewrite E; cbn; lia|].
    apply Z.log2_lt_pow2; lia.
  - apply (testbit_small X 63 j); lia.
Qed.

Lemma s32_shiftr h s : is_s32 h -> 0 <= s -> is_s32 (Z.shiftr h s).
Proof.
  intros Hh Hs. rewrite Z.shiftr_div_pow2 by lia.
  assert (0 < 2 ^ s) by (apply Z.pow_pos_nonneg; lia).
  word_unfold. generalize dependent (2 ^ s). intros P HP.
  split.
  - apply Z.div_le_lower_bound; nia.
  - apply Z.div_lt_upper_bound; nia.
Qed.

Lemma words_of_value x :
  wf x -> high x = Z.shiftr (to_sll x) 32 /\ low x = to_sll x mod 2 ^ 32.
Proof.
  intros Hx. rewrite to_sll_eq by assumption. destruct Hx as [Hh Hl].
  rewrite Z.shiftr_div_pow2 by lia. word_unfold. zdm.
Qed.

Lemma INT64_shr_wf x s : wf x -> wf (shr x s).
Proof.
  intros Hx. unfold shr. destruct (s <? 0); [exact Hx|].
  destruct (s >=? 64); [apply INT64_wf_make|]. destruct (s =? 0); [exact Hx|].
  destruct (s >=? 32); apply INT64_wf_make.
Qed.

Ltac sign_close HX :=
  repeat match goal with
         | |- context [Z.testbit ?X ?j] => rewrite (sign_bits X j HX) by lia
         end;
  repeat match goal with
         | |- context [Z.ltb ?a ?b] => destruct (Z.ltb_spec a b)
         end;
  try reflexivity; try lia.

Lemma to_ull_bits_shr x s :
  wf x -> 0 <= s ->
  UINT64.to_ull (to_UINT64 (shr x s)) = (Z.shiftr (to_sll x) s) mod 2 ^ 64.
Proof.
  intros Hx Hs. pose proof (to_sll_range x Hx) as HX.
  destruct (words_of_value x Hx) as [Eh El].
  assert (Hsign : (high x <? 0) = (to_sll x <? 0)) by now apply high_sign.
  unfold shr. destruct (Z.ltb_spec s 0); [lia|]. rewrite !Z.geb_leb.
  destruct (Z.leb_spec 64 s).
  { rewrite bits_make, Hsign. unfold UINT64.to_ull, UINT64.make; cbn [UINT64.high UINT64.low].
    unfold u32. change 4294967295 with (Z.ones 32).
    destruct (Z.ltb_spec (to_sll x) 0); bits; sign_close HX. }
  destruct (Z.eqb_spec s 0) as [->|Hs0].
  { rewrite to_ull_bits, Z.shiftr_0_r by assumption. reflexivity. }
  destruct (Z.leb_spec 32 s).
  - rewrite bits_make, Hsign, Eh. unfold UINT64.to_ull, UINT64.make; cbn [UINT64.high UINT64.low].
    unfold u32.
    destruct (Z.ltb_spec (to_sll x) 0); bits; sign_close HX.
  - rewrite bits_make, Eh, El. unfold UINT64.to_ull, UINT64.make; cbn [UINT64.high UINT64.low].
    unfold u32. bits; sign_close HX.
Qed.

Lemma to_sll_shr x s :
  wf x -> 0 <= s -> to_sll (shr x s) = to_sll x / 2 ^ s.
Proof.
  intros Hx Hs. rewrite to_sll_bits, to_ull_bits_shr, s64_of_mod by (assumption || now apply INT64_shr_wf).
  rewrite Z.shiftr_div_pow2 by lia. apply s64_small.
  pose proof (to_sll_range x Hx) as HX.
  assert (0 < 2 ^ s) by (apply Z.pow_pos_nonneg; lia).
  s64_unfold. generalize dependent (2 ^ s). intros P HP. split.
  - apply Z.div_le_lower_bound; nia.
  - apply Z.div_lt_upper_bound; nia.
Qed.

Lemma INT64_order x y :
  wf x -> wf y ->
  op_eq x y = (to_sll x =? to_sll y) /\
  op_ne x y = negb (to_sll x =? to_sll y) /\
  op_lt x y = (to_sll x <? to_sll y) /\
  op_le x y = (to_sll x <=? to_sll y) /\
  op_gt x y = (to_sll y <? to_sll x) /\
  op_ge x y = (to_sll y <=? to_sll x).
Proof.
  intros Hx Hy. rewrite !to_sll_eq by assumption.
  destruct x as [hx lx], y as [hy ly], Hx, Hy; cbn in *.
  unfold op_eq, op_ne, op_lt, op_le, op_gt, op_ge, op_eq; cbn. word_unfold. zbool.
Qed.

Lemma INT64_shl_wf x s : wf x -> wf (shl x s).
Proof.
  intros Hx. unfold shl. destruct ((s <? 0) || (s >=? 64)); [apply INT64_wf_make|].
  destruct (s =? 0); [exact Hx|]. destruct (s >=? 32); apply INT64_wf_make.
Qed.

Lemma to_sll_shl x s :
  wf x -> 0 <= s -> to_sll (shl x s) = s64 (to_sll x * 2 ^ s).
Proof.
  intros Hx Hs.
  rewrite to_sll_bits, bits_shl, shl_value, s64_of_mod, to_ull_bits
    by (assumption || apply bits_wf || now apply INT64_shl_wf).
  apply s64_congr. rewrite Z.mul_mod_idemp_l by lia. reflexivity.
Qed.

Lemma INT64_preinc_wf x : wf x -> wf (op_preinc x).
Proof.
  intros [Hh Hl]. unfold op_preinc; cbn.
  destruct (u32 (low x + 1) =? 0); split; cbn;
    try apply u32_range; try apply s32_range; assumption.
Qed.

Lemma INT64_predec_wf x : wf x -> wf (op_predec x).
Proof.
  intros [Hh Hl]. unfold op_predec; cbn.
  destruct (low x =? 0); split; cbn;
    try apply u32_range; try apply s32_range; assumption.
Qed.

Lemma to_sll_preinc x : wf x -> to_sll (op_preinc x) = s64 (to_sll x + 1).
Proof.
  intros Hx. rewrite to_sll_bits, bits_preinc, to_ull_preinc, s64_of_mod, to_ull_bits
    by (assumption || apply bits_wf || now apply INT64_preinc_wf).
  apply s64_congr. rewrite Z.add_mod_idemp_l by lia. reflexivity.
Qed.

Lemma to_sll_predec x : wf x -> to_sll (op_predec x) = s64 (to_sll x - 1).
Proof.
  intros Hx. rewrite to_sll_bits, bits_predec, to_ull_predec, s64_of_mod, to_ull_bits
    by (assumption || apply bits_wf || now apply INT64_predec_wf).
  apply s64_congr. rewrite Zminus_mod_idemp_l. reflexivity.
Qed.

Lemma is_s32_shiftr a : is_s32 a <-> Z.shiftr a 31 = 0 \/ Z.shiftr a 31 = -1.
Proof. rewrite Z.shiftr_div_pow2 by lia. word_unfold. split; intros; zdm. Qed.

Lemma s32_bitwise a b :
  is_s32 a -> is_s32 b ->
  is_s32 (Z.land a b) /\ is_s32 (Z.lor a b) /\ is_s32 (Z.lxor a b) /\ is_s32 (Z.lnot a).
Proof.
  intros Ha Hb. split; [|split; [|split]].
  - apply is_s32_shiftr. rewrite Z.shiftr_land.
    apply is_s32_shiftr in Ha, Hb. destruct Ha as [-> | ->], Hb as [-> | ->]; cbn; auto.
  - apply is_s32_shiftr. rewrite Z.shiftr_lor.
    apply is_s32_shiftr in Ha, Hb. destruct Ha as [-> | ->], Hb as [-> | ->]; cbn; auto.
  - apply is_s32_shiftr. rewrite Z.shiftr_lxor.
    apply is_s32_shiftr in Ha, Hb. destruct Ha as [-> | ->], Hb as [-> | ->]; cbn; auto.
  - rewrite Z.lnot_eq_pred_opp. word_unfold. lia.
Qed.

Lemma INT64_bitwise x y :
  wf x -> wf y ->
  to_sll (op_and x y) = Z.land (to_sll x) (to_sll y) /\
  to_sll (op_or x y) = Z.lor (to_sll x) (to_sll y) /\
  to_sll (op_xor x y) = Z.lxor (to_sll x) (to_sll y) /\
  to_sll (op_not x) = Z.lnot (to_sll x).
Proof.
  intros [Hhx Hlx] [Hhy Hly]. destruct x as [hx lx], y as [hy ly]; cbn [high low] in *.
  destruct (s32_bitwise hx hy Hhx Hhy) as (Ha & Ho & Hxo & Hn).
  unfold op_and, op_or, op_xor, op_not, Make, to_sll; cbn.
  rewrite !s32_small by assumption.
  rewrite <- (u32_small lx Hlx), <- (u32_small ly Hly). unfold u32.
  split; [bits|]. split; [bits|]. split; bits.
Qed.

Lemma to_sll_of_i32 val : wf (of_i32 val) /\ to_sll (of_i32 val) = s32 val.
Proof.
  pose proof (s32_range val) as Hv.
  assert (Hw : wf (of_i32 val)).
  { split; cbn; [|apply u32_range]. destruct (s32 val <? 0); word_unfold; lia. }
  split; [exact Hw|]. rewrite to_sll_eq by exact Hw. cbn.
  generalize dependent (s32 val). intros v Hv. fold (u32 v). word_unfold.
  destruct (Z.ltb_spec v 0); zdm.
Qed.

Lemma INT64_order_i32 x val :
  wf x ->
  lt_i32 x val = (to_sll x <? s32 val) /\
  le_i32 x val = (to_sll x <=? s32 val) /\
  gt_i32 x val = (s32 val <? to_sll x) /\
  ge_i32 x val = (s32 val <=? to_sll x) /\
  eq_i32 x val = (to_sll x =? s32 val) /\
  ne_i32 x val = negb (to_sll x =? s32 val).
Proof.
  intros Hx. destruct (to_sll_of_i32 val) as [Hw Ev].
  split.
  { unfold lt_i32. destruct (INT64_order x (of_i32 val) Hx Hw) as (_ & _ & -> & _).
    now rewrite Ev. }
  rewrite !to_sll_eq by assumption. pose proof (s32_range val) as Hv.
  destruct x as [h l], Hx as [Hh Hl]; cbn in *.
  unfold le_i32, gt_i32, ge_i32, eq_i32, ne_i32; cbn.
  generalize dependent (s32 val). intros v _ Hv.
  assert (Eu : u32 v = if v <? 0 then v + 4294967296 else v)
    by (word_unfold; destruct (Z.ltb_spec v 0); zdm).
  rewrite Eu. word_unfold. destruct (Z.ltb_spec v 0); zbool.
Qed.

Lemma INT64_of_sll_round v :
  wf (of_sll v) /\ to_sll (of_sll v) = s64 v.
Proof.
  assert (Hw : wf (of_sll v)) by (split; cbn; [apply s32_range|apply u32_range]).
  split; [exact Hw|]. rewrite to_sll_eq by exact Hw. unfold of_sll; cbn [high low].
  rewrite !land_ffffffff, Z.shiftr_div_pow2 by lia. fold (u32 v) (u32 (v / 2 ^ 32)).
  rewrite !u32_idem, s32_u32. s64_unfold. word_unfold.
  destruct (Z.ltb_spec ((v / 4294967296) mod 4294967296) 2147483648),
    (Z.ltb_spec (v mod 18446744073709551616) 9223372036854775808); zdm.
Qed.

Lemma INT64_to_sll_round x : wf x -> of_sll (to_sll x) = x.
Proof.
  intros Hx. destruct (INT64_of_sll_round (to_sll x)) as [Hw E].
  apply to_sll_inj; try assumption. rewrite E. apply s64_small. now apply to_sll_range.
Qed.

Lemma INT64_assign_same x other s :
  add_assign x other = add x other /\
  sub_assign x other = sub x other /\
  shl_assign x s = shl x s /\
  shr_assign x s = shr x s.
Proof.
  assert (Es : forall v, s32 (s32 v) = s32 v) by (intros; apply s32_small, s32_range).
  split; [unfold add_assign, add, make; now rewrite !u32_idem, !Es|].
  split; [unfold sub_assign, sub, make; now rewrite !u32_idem, !Es|].
  split.
  - unfold shl_assign, shl. destruct ((s <? 0) || (s >=? 64)); [reflexivity|].
    destruct (s =? 0); [reflexivity|]. destruct (s >=? 32); unfold make;
      now rewrite ?Es, ?u32_idem.
  - unfold shr_assign, shr. destruct (s <? 0); [reflexivity|].
    destruct (s >=? 64); [destruct (high x <? 0); reflexivity|].
    destruct (s =? 0); [reflexivity|].
    destruct (s >=? 32); unfold make; [destruct (high x <? 0)|]; now rewrite ?u32_idem.
Qed.

(** X15.  [+], [-], unary [-] and [*] of [INT64] are the signed operations
    modulo 2^64 (two's complement). *)
Theorem INT64_arithmetic_native (x y : t) :
  wf x -> wf y ->
  wf (add x y) /\ wf (sub x y) /\ wf (neg x) /\ wf (mul x y) /\
  to_sll (add x y) = s64 (to_sll x + to_sll y) /\
  to_sll (sub x y) = s64 (to_sll x - to_sll y) /\
  to_sll (neg x) = s64 (- to_sll x) /\
  to_sll (mul x y) = s64 (to_sll x * to_sll y).
Proof.
  intros Hx Hy. repeat (split; [apply INT64_wf_make|]).
  split; [now apply to_sll_add|]. split; [now apply to_sll_sub|].
  split; [now apply to_sll_neg|now apply to_sll_mul].
Qed.

Lemma INT64_arithmetic_native_witness :
  to_sll (mul (mk (-1) 4294967293) (mk 0 5)) = -15 /\
  to_sll (neg (mk (-2147483648) 0)) = -9223372036854775808.
Proof.
  destruct (INT64_arithmetic_native (mk (-1) 4294967293) (mk 0 5))
    as (_ & _ & _ & _ & _ & _ & _ & Em); [split; cbn; unfold is_s32, is_u32; lia ..|].
  destruct (INT64_arithmetic_native (mk (-2147483648) 0) (mk 0 5))
    as (_ & _ & _ & _ & _ & _ & En & _); [split; cbn; unfold is_s32, is_u32; lia ..|].
  rewrite Em, En. split; reflexivity.
Defined.

(** X16.  The six comparison operators the macro generates for [INT64]
    are the comparisons of the signed 64-bit values. *)
Theorem INT64_comparisons_native (x y : t) :
  wf x -> wf y ->
  op_eq x y = (to_sll x =? to_sll y) /\
  op_ne x y = negb (to_sll x =? to_sll y) /\
  op_lt x y = (to_sll x <? to_sll y) /\
  op_le x y = (to_sll x <=? to_sll y) /\
  op_gt x y = (to_sll y <? to_sll x) /\
  op_ge x y = (to_sll y <=? to_sll x).
Proof. exact (INT64_order x y). Qed.

Lemma INT64_comparisons_native_witness :
  op_lt (mk (-1) 0) (mk 0 0) = true /\ op_ge (mk (-1) 5) (mk (-1) 4) = true.
Proof.
  destruct (INT64_comparisons_native (mk (-1) 0) (mk 0 0)) as (_ & _ & El & _);
    [split; cbn; unfold is_s32, is_u32; lia ..|].
  destruct (INT64_comparisons_native (mk (-1) 5) (mk (-1) 4)) as (_ & _ & _ & _ & _ & Eg);
    [split; cbn; unfold is_s32, is_u32; lia ..|].
  rewrite El, Eg. split; reflexivity.
Defined.

(** X17.  [a >> s] of [INT64] is the arithmetic shift: for every
    [s >= 0] the result is the floor of [a / 2^s], so a negative value
    shifted by 64 or more gives -1 and a non-negative one gives 0. *)
Theorem INT64_shr_arithmetic (x : t) (s : Z) :
  wf x -> 0 <= s ->
  wf (shr x s) /\ to_sll (shr x s) = to_sll x / 2 ^ s /\
  (64 <= s -> to_sll (shr x s) = if to_sll x <? 0 then -1 else 0).
Proof.
  intros Hx Hs. split; [now apply INT64_shr_wf|]. split; [now apply to_sll_shr|].
  intros H64. rewrite to_sll_shr by assumption. pose proof (to_sll_range x Hx) as HX.
  assert (2 ^ 64 <= 2 ^ s) by (apply Z.pow_le_mono_r; lia).
  s64_unfold. destruct (Z.ltb_spec (to_sll x) 0).
  - symmetry. apply (Z.div_unique _ _ (-1) (to_sll x + 2 ^ s)); lia.
  - apply Z.div_small. lia.
Qed.

Lemma INT64_shr_arithmetic_witness :
  to_sll (shr (mk (-1) 4294967289) 1) = -4 /\ to_sll (shr (mk (-3) 0) 40) = -1.
Proof.
  destruct (INT64_shr_arithmetic (mk (-1) 4294967289) 1) as (_ & E1 & _);
    [split; cbn; unfold is_s32, is_u32; lia|lia|].
  destruct (INT64_shr_arithmetic (mk (-3) 0) 40) as (_ & E2 & _);
    [split; cbn; unfold is_s32, is_u32; lia|lia|].
  rewrite E1, E2. split; reflexivity.
Defined.

(** X18.  For every [s >= 0], [a << s] of [INT64] is [a * 2^s] read
    modulo 2^64 as a signed value. *)
Theorem INT64_shl_value (x : t) (s : Z) :
  wf x -> 0 <= s ->
  wf (shl x s) /\ to_sll (shl x s) = s64 (to_sll x * 2 ^ s).
Proof.
  intros Hx Hs. split; [now apply INT64_shl_wf|now apply to_sll_shl].
Qed.

Lemma INT64_shl_value_witness :
  to_sll (shl (mk (-1) 4294967293) 34) = -51539607552.
Proof.
  destruct (INT64_shl_value (mk (-1) 4294967293) 34) as (_ & E);
    [split; cbn; unfold is_s32, is_u32; lia|lia|].
  rewrite E. reflexivity.
Defined.

(** X19.  The comparisons of an [INT64] with an [INT32] are the
    comparisons of the signed 64-bit value with the 32-bit one. *)
Theorem INT64_comparisons_i32_native (x : t) (val : Z) :
  wf x -> is_s32 val ->
  lt_i32 x val = (to_sll x <? val) /\
  le_i32 x val = (to_sll x <=? val) /\
  gt_i32 x val = (val <? to_sll x) /\
  ge_i32 x val = (val <=? to_sll x) /\
  eq_i32 x val = (to_sll x =? val) /\
  ne_i32 x val = negb (to_sll x =? val).
Proof.
  intros Hx Hv. pose proof (INT64_order_i32 x val Hx) as H.
  rewrite (s32_small val Hv) in H. exact H.
Qed.

Lemma INT64_comparisons_i32_native_witness :
  lt_i32 (mk (-1) 4294967290) (-5) = true /\ ge_i32 (mk (-2) 0) (-5) = false.
Proof.
  destruct (INT64_comparisons_i32_native (mk (-1) 4294967290) (-5)) as (El & _);
    [split; cbn; unfold is_s32, is_u32; lia|unfold is_s32; lia|].
  destruct (INT64_comparisons_i32_native (mk (-2) 0) (-5)) as (_ & _ & _ & Eg & _);
    [split; cbn; unfold is_s32, is_u32; lia|unfold is_s32; lia|].
  rewrite El, Eg. split; reflexivity.
Defined.

(** X20.  The constructor of [INT64] from [signed long long] and the
    conversion back are inverse, and the conversion to [UINT64] keeps the
    64 bits: its unsigned value is the signed value modulo 2^64. *)
Theorem INT64_sll_round_trip (x : t) (v : Z) :
  wf x ->
  of_sll (to_sll x) = x /\ wf (of_sll v) /\ to_sll (of_sll v) = s64 v /\
  UINT64.to_ull (to_UINT64 x) = to_sll x mod 2 ^ 64.
Proof.
  intros Hx. split; [now apply INT64_to_sll_round|].
  destruct (INT64_of_sll_round v) as [Hw E]. split; [exact Hw|]. split; [exact E|].
  now apply to_ull_bits.
Qed.

Lemma INT64_sll_round_trip_witness :
  of_sll (to_sll (mk (-7) 9)) = mk (-7) 9.
Proof.
  destruct (INT64_sll_round_trip (mk (-7) 9) 0) as (E & _);
    [split; cbn; unfold is_s32, is_u32; lia|exact E].
Defined.

(** X21.  [&], [|], [^] and [~] of [INT64] are the bitwise operations on
    the signed value; [~a] is [-a - 1]. *)
Theorem INT64_bitwise_native (x y : t) :
  wf x -> wf y ->
  to_sll (op_and x y) = Z.land (to_sll x) (to_sll y) /\
  to_sll (op_or x y) = Z.lor (to_sll x) (to_sll y) /\
  to_sll (op_xor x y) = Z.lxor (to_sll x) (to_sll y) /\
  to_sll (op_not x) = - to_sll x - 1.
Proof.
  intros Hx Hy. destruct (INT64_bitwise x y Hx Hy) as (Ea & Eo & Ex & En).
  split; [exact Ea|]. split; [exact Eo|]. split; [exact Ex|].
  rewrite En, Z.lnot_eq_pred_opp. lia.
Qed.

Lemma INT64_bitwise_native_witness :
  to_sll (op_and (mk (-1) 4294967295) (mk 0 12)) = 12 /\
  to_sll (op_not (mk 0 0)) = -1.
Proof.
  destruct (INT64_bitwise_native (mk (-1) 4294967295) (mk 0 12)) as (Ea & _);
    [split; cbn; unfold is_s32, is_u32; lia ..|].
  destruct (INT64_bitwise_native (mk 0 0) (mk 0 0)) as (_ & _ & _ & En);
    [split; cbn; unfold is_s32, is_u32; lia ..|].
  rewrite Ea, En. split; reflexivity.
Defined.

(** X22.  [++] and [--] of [INT64] add and subtract one as signed values
    modulo 2^64: -1 incremented is 0, and the largest value incremented is
    the smallest. *)
Theorem INT64_increment_decrement (x : t) :
  wf x ->
  wf (op_preinc x) /\ wf (op_predec x) /\
  to_sll (op_preinc x) = s64 (to_sll x + 1) /\
  to_sll (op_predec x) = s64 (to_sll x - 1).
Proof.
  intros Hx. split; [now apply INT64_preinc_wf|]. split; [now apply INT64_predec_wf|].
  split; [now apply to_sll_preinc|now apply to_sll_predec].
Qed.

Lemma INT64_increment_decrement_witness :
  to_sll (op_preinc (mk (-1) 4294967295)) = 0 /\
  to_sll (op_preinc (mk 2147483647 4294967295)) = -9223372036854775808.
Proof.
  destruct (INT64_increment_decrement (mk (-1) 4294967295)) as (_ & _ & E1 & _);
    [split; cbn; unfold is_s32, is_u32; lia|].
  destruct (INT64_increment_decrement (mk 2147483647 4294967295)) as (_ & _ & E2 & _);
    [split; cbn; unfold is_s32, is_u32; lia|].
  rewrite E1, E2. split; reflexivity.
Defined.

(** X23.  The constructor [INT64(INT32)] sign-extends its argument, so
    the operators of [INT64] with an [INT32] operand compute with the
    value of that operand: sum, difference and product modulo 2^64, and
    for a non-zero operand the truncated quotient and its remainder. *)
Theorem INT64_i32_operand (x : t) (val : Z) :
  wf x -> is_s32 val ->
  to_sll (of_i32 val) = val /\
  to_sll (add_i32 x val) = s64 (to_sll x + val) /\
  to_sll (sub_i32 x val) = s64 (to_sll x - val) /\
  to_sll (mul_i32 x val) = s64 (to_sll x * val) /\
  (val <> 0 ->
   to_sll (div_i32 x val) = s64 (Z.quot (to_sll x) val) /\
   to_sll (rem_i32 x val) = Z.rem (to_sll x) val).
Proof.
  intros Hx Hv. destruct (to_sll_of_i32 val) as [Hw Ev].
  rewrite (s32_small val Hv) in Ev.
  unfold add_i32, sub_i32, mul_i32, div_i32, rem_i32.
  rewrite to_sll_add, to_sll_sub, to_sll_mul, Ev by assumption.
  repeat (split; [reflexivity|]). intros Hnz.
  rewrite to_sll_div, to_sll_rem, Ev by (assumption || now rewrite Ev).
  split; reflexivity.
Qed.

Lemma INT64_i32_operand_witness :
  to_sll (add_i32 (mk 0 3) (-5)) = -2 /\ to_sll (div_i32 (mk (-1) 4294967289) 2) = -3.
Proof.
  destruct (INT64_i32_operand (mk 0 3) (-5)) as (_ & Ea & _);
    [split; cbn; unfold is_s32, is_u32; lia|unfold is_s32; lia|].
  destruct (INT64_i32_operand (mk (-1) 4294967289) 2) as (_ & _ & _ & _ & Ed);
    [split; cbn; unfold is_s32, is_u32; lia|unfold is_s32; lia|].
  destruct Ed as [Ed _]; [lia|]. rewrite Ea, Ed. split; reflexivity.
Defined.
End INT64_more.

(** ** Compound assignments and extreme values *)

(** X24.  In both classes the compound assignments [+=], [-=], [<<=] and
    [>>=] leave in the object exactly what the binary operator returns,
    for every operand and every shift amount. *)
Theorem compound_assignments_agree
    (x other : UINT64.t) (y other' : INT64.t) (s : Z) :
  UINT64.add_assign x other = UINT64.add x other /\
  UINT64.sub_assign x other = UINT64.sub x other /\
  UINT64.shl_assign x s = UINT64.shl x s /\
  UINT64.shr_assign x s = UINT64.shr x s /\
  INT64.add_assign y other' = INT64.add y other' /\
  INT64.sub_assign y other' = INT64.sub y other' /\
  INT64.shl_assign y s = INT64.shl y s /\
  INT64.shr_assign y s = INT64.shr y s.
Proof.
  destruct (UINT64_assign_same x other s) as (H1 & H2 & H3 & H4).
  destruct (INT64_assign_same y other' s) as (H5 & H6 & H7 & H8).
  repeat split; assumption.
Qed.

(** X25.  [UINT64::MAX()] is 2^64 - 1 and no [UINT64] is greater;
    [INT64::MIN()] and [INT64::MAX()] are -2^63 and 2^63 - 1 and every
    [INT64] lies between them. *)
Theorem MAX_MIN_are_extreme (x : UINT64.t) (y : INT64.t) :
  UINT64.wf x -> INT64.wf y ->
  UINT64.to_ull UINT64.MAX = 2 ^ 64 - 1 /\
  op_le x UINT64.MAX = true /\
  INT64.to_sll INT64.MIN = - 2 ^ 63 /\
  INT64.to_sll INT64.MAX = 2 ^ 63 - 1 /\
  op_le INT64.MIN y = true /\ op_le y INT64.MAX = true.
Proof.
  intros Hx Hy. pose proof (to_ull_range x Hx) as HX.
  pose proof (to_sll_range y Hy) as HY. s64_unfold.
  assert (Hmax : UINT64.wf UINT64.MAX) by apply wf_make.
  assert (Hmin' : INT64.wf INT64.MIN) by apply INT64_wf_make.
  assert (Hmax' : INT64.wf INT64.MAX) by apply INT64_wf_make.
  assert (E1 : UINT64.to_ull UINT64.MAX = 18446744073709551615) by reflexivity.
  assert (E2 : INT64.to_sll INT64.MIN = -9223372036854775808) by reflexivity.
  assert (E3 : INT64.to_sll INT64.MAX = 9223372036854775807) by reflexivity.
  split; [exact E1|].
  destruct (UINT64_order x UINT64.MAX Hx Hmax) as (_ & _ & _ & -> & _).
  split; [rewrite E1; apply Z.leb_le; lia|].
  split; [exact E2|]. split; [exact E3|].
  destruct (INT64_order INT64.MIN y Hmin' Hy) as (_ & _ & _ & -> & _).
  destruct (INT64_order y INT64.MAX Hy Hmax') as (_ & _ & _ & -> & _).
  rewrite E2, E3. split; apply Z.leb_le; lia.
Qed.

Lemma MAX_MIN_are_extreme_witness :
  op_le (UINT64.mk 7 9) UINT64.MAX = true /\ op_le INT64.MIN (INT64.mk (-7) 9) = true.
Proof.
  destruct (MAX_MIN_are_extreme (UINT64.mk 7 9) (INT64.mk (-7) 9))
    as (_ & E1 & _ & _ & E2 & _).
  - split; cbn; unfold is_u32; lia.
  - split; cbn; unfold is_s32, is_u32; lia.
  - split; assumption.
Defined.


(** ** memset and memcmp *)

Section Memory_more.
Import Allocator.

Lemma Z_of_byte_range b : 0 <= Z_of_byte b <= 255.
Proof. unfold Z_of_byte. pose proof (Byte.to_N_bounded b). lia. Qed.

Lemma Z_of_byte_inj a b : Z_of_byte a = Z_of_byte b -> a = b.
Proof.
  unfold Z_of_byte. intros E. apply N2Z.inj in E.
  assert (H : Some a = Some b) by (rewrite <- (Byte.of_to_N a), <- (Byte.of_to_N b); now f_equal).
  now inversion H.
Qed.

Lemma Z_of_byte_of_Z z : Z_of_byte (byte_of_Z z) = z mod 256.
Proof.
  unfold byte_of_Z, Z_of_byte. pose proof (Z.mod_pos_bound z 256 ltac:(lia)) as Hz.
  destruct (Byte.of_N (Z.to_N (z mod 256))) as [b|] eqn:E.
  - apply Byte.to_of_N in E. rewrite E. lia.
  - apply Byte.of_N_None_iff in E. lia.
Qed.

Lemma set_loop_frame n i p byte (mem : memory) a :
  ~ (p + i <= a < p + i + Z.of_nat n) -> set_loop n i p byte mem a = mem a.
Proof.
  revert i mem. induction n as [|n IH]; intros i mem Ha; [reflexivity|].
  cbn [set_loop]. rewrite IH by lia. apply fn_lookup_insert_ne. lia.
Qed.

Lemma set_loop_written n i p byte (mem : memory) a :
  p + i <= a < p + i + Z.of_nat n -> set_loop n i p byte mem a = byte.
Proof.
  revert i mem. induction n as [|n IH]; intros i mem Ha; [lia|].
  cbn [set_loop]. destruct (Z.eq_dec a (p + i)) as [->|Hne].
  - rewrite set_loop_frame by lia. apply fn_lookup_insert.
  - apply IH. lia.
Qed.

Lemma cmp_loop_equal n i p1 p2 (mem : memory) :
  (forall j, 0 <= j < Z.of_nat n -> mem (p1 + (i + j)) = mem (p2 + (i + j))) ->
  cmp_loop n i p1 p2 mem = 0.
Proof.
  revert i. induction n as [|n IH]; intros i Heq; [reflexivity|].
  cbn [cmp_loop]. pose proof (Heq 0 ltac:(lia)) as E0. rewrite Z.add_0_r in E0.
  rewrite E0, (Byte.byte_dec_lb eq_refl). cbn. apply IH. intros j Hj.
  replace (i + 1 + j) with (i + (j + 1)) by lia. apply Heq. lia.
Qed.

(** The loop returns the difference of the first pair of bytes that
    differ. *)
Lemma cmp_loop_first_diff n i p1 p2 (mem : memory) k :
  0 <= k < Z.of_nat n ->
  (forall j, 0 <= j < k -> mem (p1 + (i + j)) = mem (p2 + (i + j))) ->
  mem (p1 + (i + k)) <> mem (p2 + (i + k)) ->
  cmp_loop n i p1 p2 mem
  = Z_of_byte (mem (p1 + (i + k))) - Z_of_byte (mem (p2 + (i + k))).
Proof.
  revert i k. induction n as [|n IH]; intros i k Hk Heq Hne; [lia|].
  cbn [cmp_loop]. destruct (Z.eq_dec k 0) as [->|Hk0].
  - rewrite Z.add_0_r in *.
    destruct (Byte.eqb (mem (p1 + i)) (mem (p2 + i))) eqn:E.
    + apply Byte.byte_dec_bl in E. contradiction.
    + cbn. apply s32_small.
      pose proof (Z_of_byte_range (mem (p1 + i))). pose proof (Z_of_byte_range (mem (p2 + i))).
      word_unfold. lia.
  - pose proof (Heq 0 ltac:(lia)) as E0. rewrite Z.add_0_r in E0.
    rewrite E0, (Byte.byte_dec_lb eq_refl). cbn.
    replace (i + k) with (i + 1 + (k - 1)) by lia. apply IH; [lia| |].
    + intros j Hj. replace (i + 1 + j) with (i + (j + 1)) by lia. apply Heq. lia.
    + now replace (i + 1 + (k - 1)) with (i + k) by lia.
Qed.

Lemma cmp_loop_zero n i p1 p2 (mem : memory) :
  cmp_loop n i p1 p2 mem = 0 ->
  forall j, 0 <= j < Z.of_nat n -> mem (p1 + (i + j)) = mem (p2 + (i + j)).
Proof.
  revert i. induction n as [|n IH]; intros i Hz j Hj; [lia|].
  cbn [cmp_loop] in Hz.
  destruct (Byte.eqb (mem (p1 + i)) (mem (p2 + i))) eqn:E; cbn in Hz.
  - apply Byte.byte_dec_bl in E. destruct (Z.eq_dec j 0) as [->|Hj0].
    + now rewrite Z.add_0_r.
    + replace (i + j) with (i + 1 + (j - 1)) by lia. apply IH; [assumption|lia].
  - exfalso. apply Byte.eqb_false in E. apply E. apply Z_of_byte_inj.
    pose proof (Z_of_byte_range (mem (p1 + i))). pose proof (Z_of_byte_range (mem (p2 + i))).
    rewrite s32_small in Hz by (word_unfold; lia). lia.
Qed.

Lemma cmp_loop_range n i p1 p2 (mem : memory) :
  -255 <= cmp_loop n i p1 p2 mem <= 255.
Proof.
  revert i. induction n as [|n IH]; intros i; [cbn; lia|].
  cbn [cmp_loop]. destruct (negb _); [|apply IH].
  pose proof (Z_of_byte_range (mem (p1 + i))). pose proof (Z_of_byte_range (mem (p2 + i))).
  rewrite s32_small by (word_unfold; lia). lia.
Qed.

Lemma cmp_loop_swap n i p1 p2 (mem : memory) :
  cmp_loop n i p2 p1 mem = - cmp_loop n i p1 p2 mem.
Proof.
  revert i. induction n as [|n IH]; intros i; [reflexivity|].
  cbn [cmp_loop].
  destruct (Byte.eqb (mem (p1 + i)) (mem (p2 + i))) eqn:E.
  - apply Byte.byte_dec_bl in E. rewrite E, (Byte.byte_dec_lb eq_refl). cbn. apply IH.
  - destruct (Byte.eqb (mem (p2 + i)) (mem (p1 + i))) eqn:E'.
    + apply Byte.byte_dec_bl in E'. rewrite E' in E. now rewrite (Byte.byte_dec_lb eq_refl) in E.
    + cbn. pose proof (Z_of_byte_range (mem (p1 + i))).
      pose proof (Z_of_byte_range (mem (p2 + i))).
      rewrite !s32_small by (word_unfold; lia). lia.
Qed.

(** X26.  [memset] returns [dest], leaves every byte outside
    [dest .. dest + count) as it was and makes each of the [count] bytes
    the low byte of [ch]; it has no null check, and with [count = 0] it
    writes nothing. *)
Theorem memset_fills (dest ch count : Z) (mem : memory) :
  0 <= count ->
  SetMemory dest ch count mem = memset dest ch count mem /\
  fst (memset dest ch count mem) = dest /\
  (forall i, 0 <= i < count ->
     snd (memset dest ch count mem) (dest + i) = byte_of_Z ch) /\
  (forall a, ~ (dest <= a < dest + count) ->
     snd (memset dest ch count mem) a = mem a) /\
  Z_of_byte (byte_of_Z ch) = ch mod 256.
Proof.
  intros Hc. unfold SetMemory, memset; cbn [fst snd].
  split; [reflexivity|]. split; [reflexivity|]. split; [|split].
  - intros i Hi. apply set_loop_written. lia.
  - intros a Ha. apply set_loop_frame. lia.
  - apply Z_of_byte_of_Z.
Qed.

Lemma memset_fills_witness :
  snd (memset 100 (-1) 3 (fun _ => Byte.x00)) (100 + 2) = Byte.xff /\
  snd (memset 100 (-1) 3 (fun _ => Byte.x00)) 103 = Byte.x00.
Proof.
  destruct (memset_fills 100 (-1) 3 (fun _ => Byte.x00)) as (_ & _ & Hw & Hf & _); [lia|].
  rewrite Hw, Hf by lia. split; reflexivity.
Defined.

(** X27.  [memcmp] returns 0 exactly when the two ranges hold the same
    bytes; otherwise it returns the difference of the first pair of bytes
    that differ, read as unsigned, so its sign orders the ranges; the
    result lies in [-255, 255], and swapping the arguments negates it. *)
Theorem memcmp_result (ptr1 ptr2 num : Z) (mem : memory) :
  0 <= num ->
  CompareMemory ptr1 ptr2 num mem = memcmp ptr1 ptr2 num mem /\
  (memcmp ptr1 ptr2 num mem = 0 <->
   forall j, 0 <= j < num -> mem (ptr1 + j) = mem (ptr2 + j)) /\
  (forall k, 0 <= k < num ->
     (forall j, 0 <= j < k -> mem (ptr1 + j) = mem (ptr2 + j)) ->
     mem (ptr1 + k) <> mem (ptr2 + k) ->
     memcmp ptr1 ptr2 num mem = Z_of_byte (mem (ptr1 + k)) - Z_of_byte (mem (ptr2 + k))) /\
  -255 <= memcmp ptr1 ptr2 num mem <= 255 /\
  memcmp ptr2 ptr1 num mem = - memcmp ptr1 ptr2 num mem.
Proof.
  intros Hn. unfold CompareMemory, memcmp. split; [reflexivity|]. split; [split|split; [|split]].
  - intros Hz j Hj. apply (cmp_loop_zero _ 0 _ _ _ Hz j). lia.
  - intros Heq. apply cmp_loop_equal. intros j Hj. apply Heq. lia.
  - intros k Hk Heq Hne. apply (cmp_loop_first_diff _ 0 _ _ _ k); [lia| |exact Hne].
    intros j Hj. apply Heq. exact Hj.
  - apply cmp_loop_range.
  - apply cmp_loop_swap.
Qed.

Lemma memcmp_result_witness :
  memcmp 100 200 2 (<[101 := Byte.x01]> (<[201 := Byte.xff]> (fun _ => Byte.x00))) = -254.
Proof.
  destruct (memcmp_result 100 200 2
              (<[101 := Byte.x01]> (<[201 := Byte.xff]> (fun _ => Byte.x00))))
    as (_ & _ & Hd & _); [lia|].
  rewrite (Hd 1); [reflexivity|lia| |vm_compute; discriminate].
  intros j Hj. assert (j = 0) as -> by lia. reflexivity.
Defined.

(** X28.  After [memcpy] between two ranges that do not overlap,
    [memcmp] of the destination with the source over the same length
    returns 0. *)
Theorem memcmp_after_memcpy (dest src count : Z) (mem : memory) :
  0 <= count -> dest <> 0 -> src <> 0 ->
  dest + count <= src \/ src + count <= dest ->
  memcmp dest src count (snd (memcpy dest src count mem)) = 0.
Proof.
  intros Hc Hd Hs Hsep. unfold memcmp, memcpy.
  destruct (Z.eqb_spec dest 0); [contradiction|]. destruct (Z.eqb_spec src 0); [contradiction|].
  cbn [orb]. destruct (Z.eqb_spec count 0) as [->|Hc0]; [reflexivity|]. cbn [snd].
  apply cmp_loop_equal. intros j Hj. rewrite Z.add_0_l.
  pose proof (copy_loop_forward (Z.to_nat count) dest src mem (Z.to_nat j)) as W.
  rewrite !(Z2Nat.id j), (Z2Nat.id count) in W by lia. rewrite W by lia.
  symmetry. apply copy_loop_frame. lia.
Qed.

Lemma memcmp_after_memcpy_witness :
  memcmp 200 100 2
    (snd (memcpy 200 100 2 (<[100 := Byte.x01]> (<[101 := Byte.x02]> (fun _ => Byte.x00)))))
  = 0.
Proof.
  apply (memcmp_after_memcpy 200 100 2); lia.
Defined.
End Memory_more.

(** ** STACK_ARRAY_STORAGE: the layout of the words *)

Section Storage_layout.
Import STACK_ARRAY_STORAGE.
Variable WordBytes CharBytes : nat.
Hypothesis WordBytes_pos : (0 < WordBytes)%nat.

Local Abbreviation SetByte := (SetByte WordBytes).
Local Abbreviation GetByte := (GetByte WordBytes).
Local Abbreviation pack_bytes := (pack_bytes WordBytes CharBytes).
Local Abbreviation pack_elements := (pack_elements WordBytes CharBytes).
Local Abbreviation is_usize := (fun w : Z => 0 <= w < 2 ^ (8 * Z.of_nat WordBytes)).

Lemma word_update_range W w m v :
  0 <= W -> 0 <= Z.lor (Z.land w (m mod 2 ^ W)) (v mod 2 ^ W) < 2 ^ W.
Proof.
  intros HW.
  assert (E : Z.lor (Z.land w (m mod 2 ^ W)) (v mod 2 ^ W)
              = (Z.lor (Z.land w (m mod 2 ^ W)) (v mod 2 ^ W)) mod 2 ^ W) by bits.
  rewrite E. apply Z.mod_pos_bound. apply Z.pow_pos_nonneg; lia.
Qed.

Lemma SetByte_range ws k v : Forall is_usize ws -> Forall is_usize (SetByte ws k v).
Proof.
  intros Hws. unfold STACK_ARRAY_STORAGE.SetByte.
  destruct (decide (Nat.div k WordBytes < length ws)%nat).
  - apply Forall_insert; [assumption|]. unfold usize. apply word_update_range. lia.
  - rewrite list_insert_ge by lia. assumption.
Qed.

Lemma pack_bytes_range n ws i v : Forall is_usize ws -> Forall is_usize (pack_bytes n ws i v).
Proof.
  intros Hws. induction n as [|n IH]; [assumption|].
  rewrite pack_bytes_S. now apply SetByte_range.
Qed.

Lemma pack_elements_range n src ws :
  Forall is_usize ws -> Forall is_usize (pack_elements n src ws).
Proof.
  intros Hws. induction n as [|n IH]; [assumption|].
  rewrite pack_elements_S. now apply pack_bytes_range.
Qed.

Lemma GetByte_pack_elements_frame n src ws k :
  (n * CharBytes <= length ws * WordBytes)%nat -> (n * CharBytes <= k)%nat ->
  GetByte (pack_elements n src ws) k = GetByte ws k.
Proof.
  induction n as [|n IH]; intros Hcap Hk; [reflexivity|].
  rewrite pack_elements_S, GetByte_pack_bytes
    by (try assumption; rewrite length_pack_elements; lia).
  destruct (decide _) as [Hin|Hout]; [lia|]. apply IH; lia.
Qed.

Lemma GetByte_replicate_zero n k :
  (Nat.div k WordBytes < n)%nat -> GetByte (replicate n 0) k = 0.
Proof.
  intros Hk. unfold STACK_ARRAY_STORAGE.GetByte.
  rewrite list_lookup_total_alt, lookup_replicate_2 by assumption. cbn.
  now rewrite Z.shiftr_0_l.
Qed.

Lemma construct_layout src :
  length (construct WordBytes CharBytes src) = WordCount WordBytes CharBytes (length src) /\
  Forall is_usize (construct WordBytes CharBytes src) /\
  (forall i b, (i < length src)%nat -> (b < CharBytes)%nat ->
     GetByte (construct WordBytes CharBytes src) (i * CharBytes + b)
     = byte_of CharBytes (to_U CharBytes (src !!! i)) b) /\
  (forall k, (length src * CharBytes <= k)%nat ->
     (k < WordCount WordBytes CharBytes (length src) * WordBytes)%nat ->
     GetByte (construct WordBytes CharBytes src) k = 0).
Proof.
  unfold construct. pose proof (capacity WordBytes CharBytes WordBytes_pos (length src)) as Hcap.
  split; [now rewrite length_pack_elements, length_replicate|].
  split; [apply pack_elements_range, Forall_replicate; split; [lia|apply Z.pow_pos_nonneg; lia]|].
  split.
  - intros i b Hi Hb. apply GetByte_pack_elements; try assumption.
    now rewrite length_replicate.
  - intros k Hk Hcapk.
    rewrite GetByte_pack_elements_frame by (try assumption; rewrite length_replicate; lia).
    apply GetByte_replicate_zero. apply Nat.Div0.div_lt_upper_bound. lia.
Qed.
End Storage_layout.

(** X29.  The storage the constructor of [STACK_ARRAY_STORAGE] builds has
    [WordCount] words, each a [USIZE] value; read byte by byte (low byte
    of each word first) it is the little-endian image of the array, byte
    [b] of element [i] at position [i * sizeof(TChar) + b], and the bytes
    after the last element up to the end of the last word are 0. *)
Theorem STACK_ARRAY_STORAGE_layout
    (WordBytes CharBytes : nat) (src : list Z) :
  WordBytes = 4%nat \/ WordBytes = 8%nat ->
  length (STACK_ARRAY_STORAGE.construct WordBytes CharBytes src)
  = STACK_ARRAY_STORAGE.WordCount WordBytes CharBytes (length src) /\
  Forall (fun w => 0 <= w < 2 ^ (8 * Z.of_nat WordBytes))
         (STACK_ARRAY_STORAGE.construct WordBytes CharBytes src) /\
  (forall i b, (i < length src)%nat -> (b < CharBytes)%nat ->
     STACK_ARRAY_STORAGE.GetByte WordBytes
       (STACK_ARRAY_STORAGE.construct WordBytes CharBytes src) (i * CharBytes + b)
     = STACK_ARRAY_STORAGE.byte_of CharBytes
         (STACK_ARRAY_STORAGE.to_U CharBytes (src !!! i)) b) /\
  (forall k, (length src * CharBytes <= k)%nat ->
     (k < STACK_ARRAY_STORAGE.WordCount WordBytes CharBytes (length src) * WordBytes)%nat ->
     STACK_ARRAY_STORAGE.GetByte WordBytes
       (STACK_ARRAY_STORAGE.construct WordBytes CharBytes src) k = 0).
Proof.
  intros HW. apply construct_layout. lia.
Qed.

Lemma STACK_ARRAY_STORAGE_layout_witness :
  length (STACK_ARRAY_STORAGE.construct 8 2 [72; 105; 8364; 0; 65535]) = 2%nat /\
  STACK_ARRAY_STORAGE.GetByte 8
    (STACK_ARRAY_STORAGE.construct 8 2 [72; 105; 8364; 0; 65535]) 12 = 0.
Proof.
  destruct (STACK_ARRAY_STORAGE_layout 8 2 [72; 105; 8364; 0; 65535])
    as (El & _ & _ & Hp); [right; reflexivity|].
  split; [rewrite El; reflexivity|]. apply Hp; cbn; lia.
Defined.

